(** * Verification of [scripts/fill_grain_type.py]

    A shallow embedding of the grain-type backfill script of the Mandi
    mobile application, and the properties of its two description parsers,
    of its rate-matching inference and of the run as a whole.

    Python values are modelled as Python has them: a [str] is a sequence of
    code points, a function call either returns a value or raises, [main]
    runs in a state-and-exception monad over the files, the table and the
    trace of actions it performs.  What the script takes from outside the
    repository without fixing it (the standard library's [unquote] and
    [json.loads], the order SQLite gives to groups of equal count, the text
    SQLite writes for a number) is collected in the class [Env]; every
    general theorem holds for every instance, and one concrete instance is
    given to run examples. *)

From Stdlib Require Import List Bool Arith NArith ZArith QArith Qabs Lia String Ascii
  DecimalString.
Import ListNotations.
Close Scope Q_scope.

Set Implicit Arguments.
Set Warnings "-register-all".

(** ** Python strings *)

(** A character is a Unicode code point, a string a list of them. *)
Definition char := N.
Definition str := list char.

Definition str_eqb (a b : str) : bool :=
  if list_eq_dec N.eq_dec a b then true else false.

Module Utf8.

(** Decoding of UTF-8 bytes to code points, with U+FFFD in place of every
    ill-formed part (what Python's [bytes.decode('utf-8', 'replace')]
    gives); it turns the literals of this file and the bytes that
    [unquote] produces into strings. *)
Definition is_cont (b : N) : bool := ((128 <=? b) && (b <? 192))%N.

Definition replacement : char := 65533%N.

Fixpoint decode (fuel : nat) (bs : list N) : str :=
  match fuel with
  | O => []
  | S fuel =>
    match bs with
    | [] => []
    | b0 :: r0 =>
      if (b0 <? 128)%N then b0 :: decode fuel r0
      else if ((194 <=? b0) && (b0 <? 224))%N then
        match r0 with
        | b1 :: r1 =>
          if is_cont b1 then ((b0 - 192) * 64 + (b1 - 128))%N :: decode fuel r1
          else replacement :: decode fuel r0
        | [] => [replacement]
        end
      else if ((224 <=? b0) && (b0 <? 240))%N then
        match r0 with
        | b1 :: r1 =>
          let lo := if (b0 =? 224)%N then 160%N else 128%N in
          let hi := if (b0 =? 237)%N then 160%N else 192%N in
          if ((lo <=? b1) && (b1 <? hi))%N then
            match r1 with
            | b2 :: r2 =>
              if is_cont b2
              then ((b0 - 224) * 4096 + (b1 - 128) * 64 + (b2 - 128))%N :: decode fuel r2
              else replacement :: decode fuel r1
            | [] => [replacement]
            end
          else replacement :: decode fuel r0
        | [] => [replacement]
        end
      else if ((240 <=? b0) && (b0 <? 245))%N then
        match r0 with
        | b1 :: r1 =>
          let lo := if (b0 =? 240)%N then 144%N else 128%N in
          let hi := if (b0 =? 244)%N then 144%N else 192%N in
          if ((lo <=? b1) && (b1 <? hi))%N then
            match r1 with
            | b2 :: r2 =>
              if is_cont b2 then
                match r2 with
                | b3 :: r3 =>
                  if is_cont b3
                  then ((b0 - 240) * 262144 + (b1 - 128) * 4096
                        + (b2 - 128) * 64 + (b3 - 128))%N :: decode fuel r3
                  else replacement :: decode fuel r2
                | [] => [replacement]
                end
              else replacement :: decode fuel r1
            | [] => [replacement]
            end
          else replacement :: decode fuel r0
        | [] => [replacement]
        end
      else replacement :: decode fuel r0
    end
  end.

Definition of_bytes (bs : list N) : str := decode (List.length bs) bs.

End Utf8.

(** [py "..."] is the Python string written by a literal of this file. *)
Definition py (s : string) : str :=
  Utf8.of_bytes (map N_of_ascii (list_ascii_of_string s)).

Module PyStr.

(** [str.isspace] on one character (CPython's [Py_UNICODE_ISSPACE]); the
    class that [str.strip()] removes and that [\s] matches. *)
Definition isspace (c : char) : bool :=
  (((9 <=? c) && (c <=? 13)) || ((28 <=? c) && (c <=? 32))
   || (c =? 133) || (c =? 160) || (c =? 5760)
   || ((8192 <=? c) && (c <=? 8202))
   || (c =? 8232) || (c =? 8233) || (c =? 8239) || (c =? 8287)
   || (c =? 12288))%N.

(** Zero digits of the decimal-digit blocks of Unicode 14 (category Nd);
    each block is [len] consecutive code points. *)
Definition decimal_blocks : list (N * N) :=
  [ (48, 10); (1632, 10); (1776, 10); (1984, 10); (2406, 10); (2534, 10);
    (2662, 10); (2790, 10); (2918, 10); (3046, 10); (3174, 10); (3302, 10);
    (3430, 10); (3558, 10); (3664, 10); (3792, 10); (3872, 10); (4160, 10);
    (4240, 10); (6112, 10); (6160, 10); (6470, 10); (6608, 10); (6784, 10);
    (6800, 10); (6992, 10); (7088, 10); (7232, 10); (7248, 10); (42528, 10);
    (43216, 10); (43264, 10); (43472, 10); (43504, 10); (43600, 10);
    (44016, 10); (65296, 10); (66720, 10); (68912, 10); (69734, 10);
    (69872, 10); (69942, 10); (70096, 10); (70384, 10); (70736, 10);
    (70864, 10); (71248, 10); (71360, 10); (71472, 10); (71904, 10);
    (72016, 10); (72784, 10); (73040, 10); (73120, 10); (92768, 10);
    (92864, 10); (93008, 10); (120782, 50); (123200, 10); (123632, 10);
    (125264, 10); (130032, 10) ]%N.

(** [\d] on a [str] pattern: any Unicode decimal digit. *)
Definition isdecimal (c : char) : bool :=
  existsb (fun b => (fst b <=? c) && (c <? fst b + snd b))%N decimal_blocks.

Fixpoint lstrip_with (p : char -> bool) (s : str) : str :=
  match s with
  | c :: s' => if p c then lstrip_with p s' else s
  | [] => []
  end.

Definition rstrip_with (p : char -> bool) (s : str) : str :=
  rev (lstrip_with p (rev s)).

(** [s.strip()] *)
Definition strip (s : str) : str := rstrip_with isspace (lstrip_with isspace s).

(** [s.startswith(prefix)] *)
Fixpoint startswith (prefix s : str) : bool :=
  match prefix, s with
  | [], _ => true
  | p :: prefix', c :: s' => (p =? c)%N && startswith prefix' s'
  | _ :: _, [] => false
  end.

(** [s.replace(old, new, 1)]: the first occurrence of [old], scanning
    from the left, is replaced. *)
Fixpoint replace_first (old new s : str) : str :=
  if startswith old s then new ++ skipn (List.length old) s
  else match s with
       | c :: s' => c :: replace_first old new s'
       | [] => []
       end.

End PyStr.


(** ** Python values and exceptions *)

(** A float is kept as the number it was read from: the double nearest to
    [m * 10^e], or one of the three values JSON text cannot spell but
    [json.loads] accepts. *)
Inductive pyfloat :=
| FNaN
| FInf (negative : bool)
| FDec (m e : Z).

(** The values [json.loads] builds, which are the values a parser of this
    script can return.  [PNone] is [None]; a [dict] keeps its items in
    insertion order. *)
Inductive pyval :=
| PNone
| PBool (b : bool)
| PInt (n : Z)
| PFloat (f : pyfloat)
| PStr (s : str)
| PList (l : list pyval)
| PDict (d : list (str * pyval)).

(** The exceptions this script can meet. *)
Inductive exn :=
| JSONDecodeError | AttributeError | TypeError | KeyError | IndexError
| ValueError | RecursionError | OSError | OperationalError | OverflowError | ProgrammingError.

(** The outcome of evaluating a Python expression or call. *)
Inductive exc (A : Type) :=
| Ok (a : A)
| Raise (e : exn).
Arguments Ok {A} a.
Arguments Raise {A} e.

Definition exc_bind {A B} (c : exc A) (f : A -> exc B) : exc B :=
  match c with
  | Ok a => f a
  | Raise e => Raise e
  end.

(** [try: body except Exception: handler] *)
Definition try_except {A} (body : exc A) (handler : exn -> exc A) : exc A :=
  match body with
  | Ok a => Ok a
  | Raise e => handler e
  end.

Declare Scope exc_scope.
Delimit Scope exc_scope with exc.
Notation "x <- c ;; k" := (exc_bind c (fun x => k))
  (at level 61, c at next level, right associativity) : exc_scope.

Module Py.

(** A float is zero when the literal is zero or so small that it rounds
    to zero: [|m * 10^e| <= 2^-1075]. *)
Definition float_is_zero (f : pyfloat) : bool :=
  match f with
  | FNaN | FInf _ => false
  | FDec m e =>
    (m =? 0)%Z
    || ((e <? 0)%Z && (Z.abs m * 2 ^ 1075 <=? 10 ^ (- e))%Z)
  end.

(** Truth value of an object, as [if x:] and [not x] test it. *)
Definition truthy (v : pyval) : bool :=
  match v with
  | PNone => false
  | PBool b => b
  | PInt n => negb (n =? 0)%Z
  | PFloat f => negb (float_is_zero f)
  | PStr s => negb (str_eqb s [])
  | PList l => match l with [] => false | _ => true end
  | PDict d => match d with [] => false | _ => true end
  end.

(** [isinstance(v, list)] *)
Definition is_list (v : pyval) : bool :=
  match v with PList _ => true | _ => false end.

(** Lookup in a [dict]: of two items with one key the later one stands. *)
Fixpoint dict_lookup (d : list (str * pyval)) (key : str) : option pyval :=
  match d with
  | [] => None
  | (k, v) :: d' =>
    match dict_lookup d' key with
    | Some v' => Some v'
    | None => if str_eqb k key then Some v else None
    end
  end.

(** [v.get(key, default)]: only a [dict] has the method. *)
Definition get (v : pyval) (key : str) (default : pyval) : exc pyval :=
  match v with
  | PDict d => Ok (match dict_lookup d key with Some x => x | None => default end)
  | _ => Raise AttributeError
  end.

(** [sub in s] on strings: [sub] occurs in [s]. *)
Fixpoint str_contains (sub s : str) : bool :=
  PyStr.startswith sub s
  || match s with
     | _ :: s' => str_contains sub s'
     | [] => false
     end.

(** [key in v] for a string [key] *)
Definition contains (key : str) (v : pyval) : exc bool :=
  match v with
  | PDict d => Ok (match dict_lookup d key with Some _ => true | None => false end)
  | PList l => Ok (existsb (fun x => match x with PStr s => str_eqb s key | _ => false end) l)
  | PStr s => Ok (str_contains key s)
  | _ => Raise TypeError
  end.

(** [v[0]] *)
Definition getitem_0 (v : pyval) : exc pyval :=
  match v with
  | PList (x :: _) => Ok x
  | PList [] => Raise IndexError
  | PStr (c :: _) => Ok (PStr [c])
  | PStr [] => Raise IndexError
  | PDict _ => Raise KeyError
  | _ => Raise TypeError
  end.

(** [v[key]] for a string [key] *)
Definition getitem_str (v : pyval) (key : str) : exc pyval :=
  match v with
  | PDict d => match dict_lookup d key with Some x => Ok x | None => Raise KeyError end
  | _ => Raise TypeError
  end.

End Py.

(** ** Regular expressions *)

Module Re.

(** The operators the script's pattern is written with.  A repetition
    ranges over one character set, as every repetition of the pattern
    does; [Opt], [Star] and [Plus] are greedy. *)
Inductive re :=
| Eps
| Chr (p : char -> bool)
| Cat (a b : re)
| Alt (a b : re)
| Opt (a : re)
| Star (p : char -> bool)
| Plus (p : char -> bool)
| Group (n : nat) (a : re).

Definition captures := list (nat * str).

(** Greedy repetition with backtracking: the longest run first, then
    each shorter one, until what follows succeeds. *)
Fixpoint star {A} (p : char -> bool) (s : str) (k : str -> option A) : option A :=
  match s with
  | c :: s' =>
    if p c then
      match star p s' k with
      | Some x => Some x
      | None => k s
      end
    else k s
  | [] => k []
  end.

(** The backtracking matcher: [k] is what is left of the pattern. *)
Fixpoint run {A} (r : re) (s : str) (caps : captures)
         (k : str -> captures -> option A) : option A :=
  match r with
  | Eps => k s caps
  | Chr p =>
    match s with
    | c :: s' => if p c then k s' caps else None
    | [] => None
    end
  | Cat a b => run a s caps (fun s' caps' => run b s' caps' k)
  | Alt a b =>
    match run a s caps k with
    | Some x => Some x
    | None => run b s caps k
    end
  | Opt a =>
    match run a s caps k with
    | Some x => Some x
    | None => k s caps
    end
  | Star p => star p s (fun s' => k s' caps)
  | Plus p =>
    match s with
    | c :: s' => if p c then star p s' (fun s'' => k s'' caps) else None
    | [] => None
    end
  | Group n a =>
    run a s caps
        (fun s' caps' => k s' ((n, firstn (List.length s - List.length s') s) :: caps'))
  end.

(** A match object: where the match starts and what its groups hold. *)
Record match_obj := { start : nat; groups : captures }.

(** [m.group(n)]: [None] for a group that took no part in the match. *)
Fixpoint lookup (n : nat) (caps : captures) : option str :=
  match caps with
  | [] => None
  | (i, g) :: caps' => if Nat.eqb i n then Some g else lookup n caps'
  end.

Definition group (m : match_obj) (n : nat) : option str := lookup n (groups m).

Definition match_here (r : re) (s : str) : option captures :=
  run r s [] (fun _ caps => Some caps).

(** [re.search]: the match at the leftmost position that has one. *)
Fixpoint search_from (r : re) (pos : nat) (s : str) : option match_obj :=
  match match_here r s with
  | Some caps => Some {| start := pos; groups := caps |}
  | None =>
    match s with
    | _ :: s' => search_from r (S pos) s'
    | [] => None
    end
  end.

Definition search (r : re) (s : str) : option match_obj := search_from r 0 s.

Fixpoint cat (rs : list re) : re :=
  match rs with
  | [] => Eps
  | [r] => r
  | r :: rs' => Cat r (cat rs')
  end.

(** The characters a literal of the pattern matches under
    [re.IGNORECASE]: both cases of a letter, and for [k] and [s] also
    the Kelvin sign and the long s, which lower-case to them. *)
Definition ignorecase (c : char) : list char :=
  if ((97 <=? c) && (c <=? 122))%N then
    [c; (c - 32)%N]
    ++ (if (c =? 107)%N then [8490%N] else if (c =? 115)%N then [383%N] else [])
  else [c].

Definition lit (c : char) : char -> bool :=
  fun d => existsb (N.eqb d) (ignorecase c).

Definition word (w : str) : re := cat (map (fun c => Chr (lit c)) w).

End Re.

Definition ch (a : ascii) : char := N_of_ascii a.

(** ** The two description parsers *)

Definition not_colon (c : char) : bool := negb (c =? ch ":")%N.
Definition digit_or_dot (c : char) : bool := PyStr.isdecimal c || (c =? ch ".")%N.
Definition times_sign : char := 215%N.

(** The item part of the pattern:
    [\s*(\d+)\s*bags\s*(?:x|×)\s*([\d.]+)kg] *)
Definition item_re : Re.re :=
  Re.cat
    [ Re.Star PyStr.isspace; Re.Group 2 (Re.Plus PyStr.isdecimal);
      Re.Star PyStr.isspace; Re.word [ch "b"; ch "a"; ch "g"; ch "s"];
      Re.Star PyStr.isspace; Re.Alt (Re.Chr (Re.lit (ch "x"))) (Re.Chr (Re.lit times_sign));
      Re.Star PyStr.isspace; Re.Group 3 (Re.Plus digit_or_dot);
      Re.word [ch "k"; ch "g"] ].

(** The optional label: [(?:([^:]+):)?] *)
Definition label_re : Re.re :=
  Re.Opt (Re.Cat (Re.Group 1 (Re.Plus not_colon)) (Re.Chr (Re.lit (ch ":")))).

(** [r'(?:([^:]+):)?\s*(\d+)\s*bags\s*(?:x|×)\s*([\d.]+)kg'] with
    [flags=re.IGNORECASE] *)
Definition simple_pattern : Re.re := Re.Cat label_re item_re.

Definition parse_from_simple_description (desc : str) : pyval :=
  match Re.search simple_pattern desc with
  | Some m =>
    match Re.group m 1 with
    | Some g => if Py.truthy (PStr g) then PStr (PyStr.strip g) else PNone
    | None => PNone
    end
  | None => PNone
  end.

Definition bos_prefix : str := Eval vm_compute in py "BillOfSupplyItems::".
Definition key_items : str := Eval vm_compute in py "items".
Definition key_grainType : str := Eval vm_compute in py "grainType".

(** ** The table *)

(** A row of [sell_transactions]: the identifier, the two numeric columns
    (exact rationals here) and the two text columns, where [None] is SQL's
    NULL. *)
Record row := mkRow {
  id : Z;
  description : option str;
  rate_per_quintal : Q;
  quantity : Q;
  grain_type : option str
}.

(** The table is the list of its rows in the order a scan returns them. *)
Definition table := list row.

Definition bytes := list Byte.byte.

(** What a file holds: plain bytes, or the image SQLite leaves in a file
    that held [before] once the table [t] is committed to it, which is a
    database whose [sell_transactions] is [t]. *)
Inductive content :=
| Bytes (data : bytes)
| Image (before : content) (t : table).

(** The table [sell_transactions] of a database file, when it has one. *)
Definition table_of (c : content) : option table :=
  match c with
  | Bytes _ => None
  | Image _ t => Some t
  end.

(** ** What the script takes from its environment *)

Class Env := {
  (** [urllib.parse.unquote] *)
  unquote : str -> str;
  (** [json.loads] *)
  json_loads : str -> exc pyval;
  (** the text SQLite stores when a float is bound to a text column, NULL
      for a NaN *)
  real_text : pyfloat -> option str;
  (** which of the groups with the highest count [ORDER BY cnt DESC]
      puts first, given all groups: an index among them *)
  tie_break : list (str * nat) -> nat;
  (** [SQLITE_MAX_VARIABLE_NUMBER] *)
  max_variable_number : nat
}.

(** ** SQL *)

Module Sql.

(** [trim(X)] removes spaces, and only spaces, from both ends. *)
Definition is_space (c : char) : bool := (c =? 32)%N.

Definition trim (s : str) : str :=
  PyStr.rstrip_with is_space (PyStr.lstrip_with is_space s).

(** [grain_type IS NULL OR trim(grain_type) = ''] *)
Definition grain_is_empty (r : row) : bool :=
  match grain_type r with
  | None => true
  | Some g => str_eqb (trim g) []
  end.

Definition Qltb (x y : Q) : bool := negb (Qle_bool y x).

Definition tolerance : Q := (1 # 1000)%Q.

(** [abs(rate_per_quintal - ?) < 0.001] *)
Definition rate_matches (rate : Q) (r : row) : bool :=
  Qltb (Qabs (rate_per_quintal r - rate)%Q) tolerance.

(** [grain_type IS NOT NULL AND abs(rate_per_quintal - ?) < 0.001] *)
Definition is_candidate (rate : Q) (r : row) : bool :=
  match grain_type r with
  | Some _ => rate_matches rate r
  | None => false
  end.

(** [GROUP BY grain_type] with [COUNT( * )]: one more row for group [g]. *)
Fixpoint count_in (g : str) (groups : list (str * nat)) : list (str * nat) :=
  match groups with
  | [] => [(g, 1)]
  | (g', n) :: groups' =>
    if str_eqb g' g then (g', S n) :: groups'
    else (g', n) :: count_in g groups'
  end.

Definition group_by_grain_type (rows : list row) : list (str * nat) :=
  fold_left
    (fun groups r =>
       match grain_type r with
       | Some g => count_in g groups
       | None => groups
       end)
    rows [].

Definition max_count (groups : list (str * nat)) : nat :=
  fold_right (fun g m => Nat.max (snd g) m) 0 groups.

(** [UPDATE sell_transactions SET grain_type = ? WHERE id = ?] *)
Definition update (g : option str) (id_ : Z) (t : table) : table :=
  map (fun r =>
         if (id r =? id_)%Z
         then mkRow (id r) (description r) (rate_per_quintal r) (quantity r) g
         else r)
      t.

(** [SELECT id, description FROM sell_transactions
     WHERE grain_type IS NULL OR trim(grain_type) = ''] *)
Definition select_empty_descriptions (t : table) : list (Z * option str) :=
  map (fun r => (id r, description r)) (filter grain_is_empty t).

(** [SELECT id, rate_per_quintal, quantity FROM sell_transactions
     WHERE grain_type IS NULL OR trim(grain_type) = ''] *)
Definition select_empty_rates (t : table) : list (Z * Q * Q) :=
  map (fun r => (id r, rate_per_quintal r, quantity r)) (filter grain_is_empty t).

(** [SELECT id, grain_type, description FROM sell_transactions
     WHERE id IN (...)] *)
Definition select_in (ids : list Z) (t : table) : list (Z * option str * option str) :=
  map (fun r => (id r, grain_type r, description r))
      (filter (fun r => existsb (Z.eqb (id r)) ids) t).

End Sql.

(** ** The machine the script runs on *)

(** The lines the script prints. *)
Inductive output :=
| BackupCreated (backup_path : str)
| FoundRows (n : nat)
| ParsedRows (n : nat)
| UpdatesApplied
| InferredRows (n : nat)
| UpdatedRow (ur : Z * option str * option str)
| Done.

(** What a run does to the world, in the order it does it. *)
Inductive event :=
| Connect (path : str)
| OpenWrite (path : str)
| WriteFile (path : str) (data : content)
| Print (line : output)
| Update (grain : option str) (id_ : Z)
| Commit
| Close.

(** The files with their contents, the paths that cannot be opened, the
    table as the script's connection sees it ([None] when there is no such
    table), and the actions performed so far. *)
Record world := mkWorld {
  files : str -> option content;
  locked : str -> bool;
  view : option table;
  trace : list event
}.

(** The committed table of the database stored at [path]. *)
Definition table_at (w : world) (path : str) : option table :=
  match files w path with
  | Some c => table_of c
  | None => None
  end.

Definition M (A : Type) : Type := world -> exc A * world.

Definition ret {A} (a : A) : M A := fun w => (Ok a, w).

Definition bind {A B} (c : M A) (f : A -> M B) : M B :=
  fun w =>
    match c w with
    | (Ok a, w') => f a w'
    | (Raise e, w') => (Raise e, w')
    end.

Definition lift {A} (c : exc A) : M A := fun w => (c, w).

Declare Scope m_scope.
Delimit Scope m_scope with M.
Notation "x <- c ;; k" := (bind c (fun x => k))
  (at level 61, c at next level, right associativity) : m_scope.
Notation "c ;; k" := (bind c (fun _ => k))
  (at level 61, right associativity) : m_scope.

Definition set_path {A} (f : str -> option A) (path : str) (a : option A)
  : str -> option A :=
  fun p => if str_eqb p path then a else f p.

Definition log (e : event) : M unit :=
  fun w => (Ok tt, mkWorld (files w) (locked w) (view w) (trace w ++ [e])).

(** [print(...)] *)
Definition print (line : output) : M unit := log (Print line).

(** [for x in l: body(x)] *)
Fixpoint for_each {A} (l : list A) (body : A -> M unit) : M unit :=
  match l with
  | [] => ret tt
  | x :: l' => bind (body x) (fun _ => for_each l' body)
  end.

(** [sqlite3.connect(path)]: a file that does not exist is created empty,
    and holds no table. *)
Definition connect (path : str) : M unit :=
  fun w =>
    if locked w path then (Raise OperationalError, w)
    else
      match files w path with
      | Some c =>
        (Ok tt, mkWorld (files w) (locked w) (table_of c) (trace w ++ [Connect path]))
      | None =>
        (Ok tt, mkWorld (set_path (files w) path (Some (Bytes []))) (locked w) None
                        (trace w ++ [Connect path]))
      end.

(** [open(path, 'rb')] *)
Definition open_rb (path : str) : M unit :=
  fun w =>
    match files w path with
    | Some _ => if locked w path then (Raise OSError, w) else (Ok tt, w)
    | None => (Raise OSError, w)
    end.

(** [open(path, 'wb')]: the file is created, or emptied. *)
Definition open_wb (path : str) : M unit :=
  fun w =>
    if locked w path then (Raise OSError, w)
    else (Ok tt, mkWorld (set_path (files w) path (Some (Bytes []))) (locked w)
                         (view w) (trace w ++ [OpenWrite path])).

(** [f.read()] on the file opened from [path] *)
Definition read (path : str) : M content :=
  fun w =>
    match files w path with
    | Some data => (Ok data, w)
    | None => (Raise OSError, w)
    end.

(** [f.write(data)] and the close that ends the [with] block *)
Definition write (path : str) (data : content) : M unit :=
  fun w =>
    (Ok tt, mkWorld (set_path (files w) path (Some data)) (locked w)
                    (view w) (trace w ++ [WriteFile path data])).

(** A [SELECT]; without the table SQLite reports an error. *)
Definition query {A} (q : table -> A) : M A :=
  fun w =>
    match view w with
    | Some t => (Ok (q t), w)
    | None => (Raise OperationalError, w)
    end.

(** [conn.commit()] on the connection to [path] *)
Definition commit (path : str) : M unit :=
  fun w =>
    match view w with
    | Some t =>
      let before := match files w path with Some b => b | None => Bytes [] end in
      (Ok tt, mkWorld (set_path (files w) path (Some (Image before t))) (locked w)
                      (view w) (trace w ++ [Commit]))
    | None => (Ok tt, mkWorld (files w) (locked w) (view w) (trace w ++ [Commit]))
    end.

(** [conn.close()] *)
Definition close : M unit := log Close.

Section Script.

Context {E : Env}.

Local Open Scope exc_scope.

(** The body of the [try] block of [parse_from_bos_description]. *)
Definition parse_from_bos_description_try (desc : str) : exc pyval :=
  let payload_str := unquote (PyStr.replace_first bos_prefix [] desc) in
  parsed <- json_loads payload_str ;;
  items <- (if Py.is_list parsed then Ok parsed
            else Py.get parsed key_items (PList [])) ;;
  cond <- (if Py.truthy items then
             if Py.is_list items then
               first <- Py.getitem_0 items ;;
               Py.contains key_grainType first
             else Ok false
           else Ok false) ;;
  if cond then
    first <- Py.getitem_0 items ;;
    Py.getitem_str first key_grainType
  else Ok PNone.

Definition parse_from_bos_description (desc : str) : exc pyval :=
  try_except (parse_from_bos_description_try desc) (fun _ => Ok PNone).

(** The grain the first loop of [main] finds for a description that is
    not empty (lines 51 to 55). *)
Definition parse_description (desc : str) : exc pyval :=
  grain <- (if PyStr.startswith bos_prefix desc
            then parse_from_bos_description desc
            else Ok PNone) ;;
  if negb (Py.truthy grain)
  then Ok (parse_from_simple_description desc)
  else Ok grain.

(** A text column as Python receives it. *)
Definition of_sql (v : option str) : pyval :=
  match v with
  | Some s => PStr s
  | None => PNone
  end.

(** The first loop of [main]: the updates it appends, in order. *)
Fixpoint collect_updates (rows : list (Z * option str)) (updates : list (pyval * Z))
  : exc (list (pyval * Z)) :=
  match rows with
  | [] => Ok updates
  | (id_, desc) :: rows' =>
    match desc with
    | Some (c :: d) =>
      grain <- parse_description (c :: d) ;;
      collect_updates rows'
        (if Py.truthy grain then updates ++ [(grain, id_)] else updates)
    | _ => collect_updates rows' updates
    end
  end.

End Script.

Section Main.

Context {E : Env}.

Definition decimal_text (n : Z) : str :=
  map N_of_ascii (list_ascii_of_string (DecimalString.NilZero.string_of_int (Z.to_int n))).

(** What a parameter of an [UPDATE] leaves in the text column
    [grain_type], when the [sqlite3] module can bind it. *)
Definition bind_text (param : pyval) : exc (option str) :=
  match param with
  | PNone => Ok None
  | PStr s => Ok (Some s)
  | PBool b => Ok (Some (decimal_text (if b then 1 else 0)))
  | PInt n =>
    if ((- 2 ^ 63 <=? n) && (n <? 2 ^ 63))%Z then Ok (Some (decimal_text n))
    else Raise OverflowError
  | PFloat f => Ok (real_text f)
  | PList _ | PDict _ => Raise ProgrammingError
  end.

Local Open Scope m_scope.

(** [cursor.execute('UPDATE sell_transactions SET grain_type = ? WHERE id = ?',
    (grain, id_))] *)
Definition execute_update (grain : pyval) (id_ : Z) : M unit :=
  g <- lift (bind_text grain) ;;
  fun w =>
    match view w with
    | Some t =>
      (Ok tt, mkWorld (files w) (locked w) (Some (Sql.update g id_ t))
                      (trace w ++ [Update g id_]))
    | None => (Raise OperationalError, w)
    end.

(** [ORDER BY cnt DESC LIMIT 1]: a group of the highest count, none when
    there is no group. *)
Definition order_by_cnt_desc_limit_1 (groups : list (str * nat)) : option (str * nat) :=
  let top := filter (fun g => Nat.eqb (snd g) (Sql.max_count groups)) groups in
  nth_error top (Nat.modulo (tie_break groups) (List.length top)).

(** The candidate query of line 74 and its [fetchone()]. *)
Definition candidate (rate : Q) (t : table) : option (str * nat) :=
  order_by_cnt_desc_limit_1
    (Sql.group_by_grain_type (filter (Sql.is_candidate rate) t)).

(** The second loop of [main]. *)
Fixpoint infer_loop (remaining : list (Z * Q * Q)) (inferred : list (Z * str))
  : M (list (Z * str)) :=
  match remaining with
  | [] => ret inferred
  | (id_, rate, qty) :: remaining' =>
    cand <- query (candidate rate) ;;
    match cand with
    | Some (inferred_grain, _) =>
      execute_update (PStr inferred_grain) id_ ;;
      infer_loop remaining' (inferred ++ [(id_, inferred_grain)])
    | None => infer_loop remaining' inferred
    end
  end.

Definition dot_bak : str := Eval vm_compute in py ".bak".

Definition main (DB_PATH : str) : M unit :=
  connect DB_PATH ;;
  let backup_path := DB_PATH ++ dot_bak in
  open_rb DB_PATH ;;
  open_wb backup_path ;;
  data <- read DB_PATH ;;
  write backup_path data ;;
  print (BackupCreated backup_path) ;;
  rows <- query Sql.select_empty_descriptions ;;
  print (FoundRows (List.length rows)) ;;
  updates <- lift (collect_updates rows []) ;;
  print (ParsedRows (List.length updates)) ;;
  for_each updates (fun u => execute_update (fst u) (snd u)) ;;
  commit DB_PATH ;;
  print UpdatesApplied ;;
  remaining <- query Sql.select_empty_rates ;;
  inferred <- infer_loop remaining [] ;;
  commit DB_PATH ;;
  print (InferredRows (List.length inferred)) ;;
  let all_ids := map snd updates ++ map fst inferred in
  match all_ids with
  | _ :: _ =>
    (if Nat.leb (List.length all_ids) max_variable_number
     then ret tt else lift (Raise OperationalError)) ;;
    updated_rows <- query (Sql.select_in all_ids) ;;
    for_each updated_rows (fun ur => print (UpdatedRow ur))
  | [] => ret tt
  end ;;
  close ;;
  print Done.

End Main.

(** ** An environment to run the script in

    Models of the two library functions, of CPython 3.11, and SQLite's
    defaults; they give the examples an environment to compute in. *)

Module Urllib.

Definition hexval (c : char) : option N :=
  if ((48 <=? c) && (c <=? 57))%N then Some (c - 48)%N
  else if ((65 <=? c) && (c <=? 70))%N then Some (c - 55)%N
  else if ((97 <=? c) && (c <=? 102))%N then Some (c - 87)%N
  else None.

(** [unquote_to_bytes] on a run of ASCII characters: [%XX] gives a byte,
    anything else stands for itself. *)
Fixpoint unquote_to_bytes (s : str) : list N :=
  match s with
  | [] => []
  | c :: s' =>
    if (c =? 37)%N then
      match s' with
      | h1 :: h2 :: s'' =>
        match hexval h1, hexval h2 with
        | Some a, Some b => (16 * a + b)%N :: unquote_to_bytes s''
        | _, _ => c :: unquote_to_bytes s'
        end
      | _ => c :: unquote_to_bytes s'
      end
    else c :: unquote_to_bytes s'
  end.

Definition flush (run : str) : str := Utf8.of_bytes (unquote_to_bytes (rev run)).

(** Every maximal run of ASCII characters is unquoted and decoded as
    UTF-8; the other characters are kept. *)
Fixpoint unquote_runs (s : str) (run : str) : str :=
  match s with
  | [] => flush run
  | c :: s' =>
    if (c <? 128)%N then unquote_runs s' (c :: run)
    else flush run ++ c :: unquote_runs s' []
  end.

Definition unquote (s : str) : str := unquote_runs s [].

End Urllib.

Module Json.

Local Open Scope exc_scope.

Definition is_ws (c : char) : bool :=
  ((c =? 32) || (c =? 9) || (c =? 10) || (c =? 13))%N.

Definition skip_ws (s : str) : str := PyStr.lstrip_with is_ws s.

Definition is_digit (c : char) : bool := ((48 <=? c) && (c <=? 57))%N.

Fixpoint span (p : char -> bool) (s : str) : str * str :=
  match s with
  | c :: s' => if p c then let (a, b) := span p s' in (c :: a, b) else ([], s)
  | [] => ([], [])
  end.

Definition digits_value (ds : str) : Z :=
  fold_left (fun acc d => (10 * acc + Z.of_N (d - 48))%Z) ds 0%Z.

(** Four hexadecimal digits after [\u]. *)
Definition hex4 (s : str) : option (N * str) :=
  match s with
  | a :: b :: c :: d :: s' =>
    match Urllib.hexval a, Urllib.hexval b, Urllib.hexval c, Urllib.hexval d with
    | Some a, Some b, Some c, Some d => Some (4096 * a + 256 * b + 16 * c + d, s')%N
    | _, _, _, _ => None
    end
  | _ => None
  end.

(** The characters of a string after its opening quote, up to the closing
    one. *)
Fixpoint string_body (s : str) (acc : str) : exc (str * str) :=
  match s with
  | [] => Raise JSONDecodeError
  | c :: s' =>
    if (c =? 34)%N then Ok (rev acc, s')
    else if (c =? 92)%N then
      match s' with
      | [] => Raise JSONDecodeError
      | e :: s'' =>
        if (e =? 34)%N then string_body s'' (34%N :: acc)
        else if (e =? 92)%N then string_body s'' (92%N :: acc)
        else if (e =? 47)%N then string_body s'' (47%N :: acc)
        else if (e =? 98)%N then string_body s'' (8%N :: acc)
        else if (e =? 102)%N then string_body s'' (12%N :: acc)
        else if (e =? 110)%N then string_body s'' (10%N :: acc)
        else if (e =? 114)%N then string_body s'' (13%N :: acc)
        else if (e =? 116)%N then string_body s'' (9%N :: acc)
        else if (e =? 117)%N then
          match s'' with
          | a :: b :: c0 :: d :: s3 =>
            match hex4 (a :: b :: c0 :: d :: []) with
            | Some (u, _) =>
              if ((55296 <=? u) && (u <? 56320))%N then
                match s3 with
                | b1 :: b2 :: a' :: b' :: c' :: d' :: s4 =>
                  match (if ((b1 =? 92) && (b2 =? 117))%N
                         then hex4 (a' :: b' :: c' :: d' :: []) else None) with
                  | Some (u2, _) =>
                    if ((56320 <=? u2) && (u2 <? 57344))%N
                    then string_body s4
                           ((65536 + (u - 55296) * 1024 + (u2 - 56320))%N :: acc)
                    else string_body s3 (u :: acc)
                  | None => string_body s3 (u :: acc)
                  end
                | _ => string_body s3 (u :: acc)
                end
              else string_body s3 (u :: acc)
            | None => Raise JSONDecodeError
            end
          | _ => Raise JSONDecodeError
          end
        else Raise JSONDecodeError
      end
    else if (c <? 32)%N then Raise JSONDecodeError
    else string_body s' (c :: acc)
  end.

(** A number: an optional minus sign, an integer part without leading
    zero, an optional fraction and an optional exponent; it is an [int]
    without fraction and exponent, a [float] otherwise. *)
Definition number (s : str) : exc (pyval * str) :=
  let (neg, s1) := match s with
                   | c :: s' => if (c =? 45)%N then (true, s') else (false, s)
                   | [] => (false, s)
                   end in
  let sign := fun (z : Z) => if neg then (- z)%Z else z in
  let (ip, s2) := match s1 with
                  | c :: s' => if (c =? 48)%N then ([c], s') else span is_digit s1
                  | [] => ([], s1)
                  end in
  match ip with
  | [] => Raise JSONDecodeError
  | _ =>
    let (fp, s3) := match s2 with
                    | c :: s' =>
                      if (c =? 46)%N then
                        match span is_digit s' with
                        | ([], _) => ([], s2)
                        | (ds, r) => (ds, r)
                        end
                      else ([], s2)
                    | [] => ([], s2)
                    end in
    let '(ex, s4) :=
        match s3 with
        | c :: s' =>
          if ((c =? 101) || (c =? 69))%N then
            let (eneg, s'') := match s' with
                               | d :: r => if (d =? 45)%N then (true, r)
                                           else if (d =? 43)%N then (false, r)
                                           else (false, s')
                               | [] => (false, s')
                               end in
            match span is_digit s'' with
            | ([], _) => (None, s3)
            | (ds, r) => (Some (if eneg then (- digits_value ds)%Z else digits_value ds), r)
            end
          else (None, s3)
        | [] => (None, s3)
        end in
    match fp, ex with
    | [], None =>
      if Nat.ltb 4300 (List.length ip) then Raise ValueError
      else Ok (PInt (sign (digits_value ip)), s4)
    | _, _ =>
      Ok (PFloat (FDec (sign (digits_value (ip ++ fp)))
                       ((match ex with Some x => x | None => 0%Z end)
                        - Z.of_nat (List.length fp))%Z), s4)
    end
  end.

Definition lit_NaN : str := Eval vm_compute in py "NaN".
Definition lit_Infinity : str := Eval vm_compute in py "Infinity".
Definition lit_mInfinity : str := Eval vm_compute in py "-Infinity".
Definition lit_true : str := Eval vm_compute in py "true".
Definition lit_false : str := Eval vm_compute in py "false".
Definition lit_null : str := Eval vm_compute in py "null".

Definition drop (w s : str) : str := skipn (List.length w) s.

(** One value, and what follows it; [fuel] bounds the depth. *)
Fixpoint value (fuel : nat) (s : str) {struct fuel} : exc (pyval * str) :=
  match fuel with
  | O => Raise RecursionError
  | S fuel =>
    match s with
    | [] => Raise JSONDecodeError
    | c :: s' =>
      if (c =? 34)%N then
        r <- string_body s' [] ;; Ok (PStr (fst r), snd r)
      else if (c =? 123)%N then
        match skip_ws s' with
        | c1 :: s1 =>
          if (c1 =? 125)%N then Ok (PDict [], s1)
          else r <- members fuel (c1 :: s1) [] ;; Ok (PDict (fst r), snd r)
        | [] => Raise JSONDecodeError
        end
      else if (c =? 91)%N then
        match skip_ws s' with
        | c1 :: s1 =>
          if (c1 =? 93)%N then Ok (PList [], s1)
          else r <- elements fuel (c1 :: s1) [] ;; Ok (PList (fst r), snd r)
        | [] => Raise JSONDecodeError
        end
      else if PyStr.startswith lit_null s then Ok (PNone, drop lit_null s)
      else if PyStr.startswith lit_true s then Ok (PBool true, drop lit_true s)
      else if PyStr.startswith lit_false s then Ok (PBool false, drop lit_false s)
      else if PyStr.startswith lit_NaN s then Ok (PFloat FNaN, drop lit_NaN s)
      else if PyStr.startswith lit_Infinity s
           then Ok (PFloat (FInf false), drop lit_Infinity s)
      else if PyStr.startswith lit_mInfinity s
           then Ok (PFloat (FInf true), drop lit_mInfinity s)
      else number s
    end
  end

(** The items of an array after [[], up to the closing bracket. *)
with elements (fuel : nat) (s : str) (acc : list pyval) {struct fuel}
     : exc (list pyval * str) :=
  match fuel with
  | O => Raise RecursionError
  | S fuel =>
    r <- value fuel s ;;
    match skip_ws (snd r) with
    | c :: s' =>
      if (c =? 93)%N then Ok (rev (fst r :: acc), s')
      else if (c =? 44)%N then elements fuel (skip_ws s') (fst r :: acc)
      else Raise JSONDecodeError
    | [] => Raise JSONDecodeError
    end
  end

(** The items of an object after [{], up to the closing brace. *)
with members (fuel : nat) (s : str) (acc : list (str * pyval)) {struct fuel}
     : exc (list (str * pyval) * str) :=
  match fuel with
  | O => Raise RecursionError
  | S fuel =>
    match s with
    | c :: s' =>
      if (c =? 34)%N then
        k <- string_body s' [] ;;
        match skip_ws (snd k) with
        | c1 :: s1 =>
          if (c1 =? 58)%N then
            r <- value fuel (skip_ws s1) ;;
            match skip_ws (snd r) with
            | c2 :: s2 =>
              if (c2 =? 125)%N then Ok (rev ((fst k, fst r) :: acc), s2)
              else if (c2 =? 44)%N
                   then members fuel (skip_ws s2) ((fst k, fst r) :: acc)
              else Raise JSONDecodeError
            | [] => Raise JSONDecodeError
            end
          else Raise JSONDecodeError
        | [] => Raise JSONDecodeError
        end
      else Raise JSONDecodeError
    | [] => Raise JSONDecodeError
    end
  end.

(** [json.loads(s)]: one value between optional white space. *)
Definition loads (s : str) : exc pyval :=
  r <- value (S (List.length s)) (skip_ws s) ;;
  match skip_ws (snd r) with
  | [] => Ok (fst r)
  | _ :: _ => Raise JSONDecodeError
  end.

End Json.

Module Sqlite.

Fixpoint strip_zeros (fuel : nat) (q e : Z) : Z * Z :=
  match fuel with
  | O => (q, e)
  | S fuel =>
    if ((q mod 10 =? 0) && negb (q =? 0))%Z then strip_zeros fuel (q / 10)%Z (e + 1)%Z
    else (q, e)
  end.

Definition zeros (n : Z) : str := repeat 48%N (Z.to_nat n).

Definition text_Inf : str := Eval vm_compute in py "Inf".

(** [a * 10^e] is too large for a double: it rounds to infinity. *)
Definition overflows (a e : Z) : bool :=
  let limit := (2 ^ 1024 - 2 ^ 970)%Z in
  if (0 <=? e)%Z then (limit <=? a * 10 ^ e)%Z
  else (limit * 10 ^ (- e) <=? a)%Z.

(** The text of a float in a text column, as [%!.15g] prints the double
    (read here off the decimal itself, which agrees for every number a
    double holds to fifteen digits); NULL for a NaN. *)
Definition real_text (f : pyfloat) : option str :=
  match f with
  | FNaN => None
  | FInf neg => Some ((if neg then [45%N] else []) ++ text_Inf)
  | FDec m e =>
    if Py.float_is_zero f then Some [48%N; 46%N; 48%N]
    else
      let sign := if (m <? 0)%Z then [45%N] else [] in
      let a := Z.abs m in
      let n := Z.of_nat (List.length (decimal_text a)) in
      let (q0, e0) :=
          if (15 <? n)%Z
          then ((a + 5 * 10 ^ (n - 16)) / 10 ^ (n - 15), e + (n - 15))%Z
          else (a, e) in
      let (q, e1) := strip_zeros 16 q0 e0 in
      let ds := decimal_text q in
      let k := Z.of_nat (List.length ds) in
      let x := (k - 1 + e1)%Z in
      if overflows a e then Some (sign ++ text_Inf)
      else if ((x <? -4) || (15 <=? x))%Z then
        let frac := match tl ds with [] => [48%N] | r => r end in
        let ex := decimal_text (Z.abs x) in
        Some (sign ++ firstn 1 ds ++ [46%N] ++ frac ++ [101%N]
                   ++ [if (x <? 0)%Z then 45%N else 43%N]
                   ++ (if Nat.ltb (List.length ex) 2 then [48%N] else []) ++ ex)
      else if (0 <=? e1)%Z then Some (sign ++ ds ++ zeros e1 ++ [46%N; 48%N])
      else if (0 <? k + e1)%Z
           then Some (sign ++ firstn (Z.to_nat (k + e1)) ds ++ [46%N]
                           ++ skipn (Z.to_nat (k + e1)) ds)
      else Some (sign ++ [48%N; 46%N] ++ zeros (- (k + e1)) ++ ds)
  end.

End Sqlite.

(** CPython 3.11 with SQLite 3.40; of groups with equal counts the first
    one found is taken. *)
#[export] Instance cpython : Env := {|
  unquote := Urllib.unquote;
  json_loads := Json.loads;
  real_text := Sqlite.real_text;
  tie_break := fun _ => 0;
  max_variable_number := N.to_nat 32766
|}.

(** ** The passes of [main] as functions of the table *)

Section Passes.

Context {E : Env}.

(** The parameters of the first batch of updates as SQLite stores them,
    when all of them can be bound. *)
Fixpoint bind_all (updates : list (pyval * Z)) : exc (list (option str * Z)) :=
  match updates with
  | [] => Ok []
  | (grain, id_) :: updates' =>
    match bind_text grain with
    | Ok g =>
      match bind_all updates' with
      | Ok bs => Ok ((g, id_) :: bs)
      | Raise e => Raise e
      end
    | Raise e => Raise e
    end
  end.

(** The table after a batch of updates. *)
Definition apply_updates (bs : list (option str * Z)) (t : table) : table :=
  fold_left (fun t b => Sql.update (fst b) (snd b) t) bs t.

(** The table after the inference loop, and the rows it inferred. *)
Fixpoint infer (remaining : list (Z * Q * Q)) (t : table) : table * list (Z * str) :=
  match remaining with
  | [] => (t, [])
  | (id_, rate, _) :: remaining' =>
    match candidate rate t with
    | Some (g, _) =>
      let (t', inferred) := infer remaining' (Sql.update (Some g) id_ t) in
      (t', (id_, g) :: inferred)
    | None => infer remaining' t
    end
  end.

(** The table a run leaves when it gets through both passes. *)
Definition textual_pass (t : table) : exc table :=
  match collect_updates (Sql.select_empty_descriptions t) [] with
  | Ok updates =>
    match bind_all updates with
    | Ok bs => Ok (apply_updates bs t)
    | Raise e => Raise e
    end
  | Raise e => Raise e
  end.

Definition inference_pass (t : table) : table :=
  fst (infer (Sql.select_empty_rates t) t).

End Passes.

(** ** What the free-text pattern describes *)

Module Shape.

Definition all (p : char -> bool) (s : str) : Prop := Forall (fun c => p c = true) s.

(** [w] read without regard to case. *)
Definition word (w s : str) : Prop := Forall2 (fun c d => Re.lit c d = true) w s.

(** [<integer> bags {x|×} <decimal>kg], with optional white space before
    each part, followed by anything. *)
Definition item (s : str) : Prop :=
  exists sp1 n sp2 bags sp3 sep sp4 wt kg rest,
    s = sp1 ++ n ++ sp2 ++ bags ++ sp3 ++ sep :: sp4 ++ wt ++ kg ++ rest
    /\ all PyStr.isspace sp1 /\ n <> [] /\ all PyStr.isdecimal n
    /\ all PyStr.isspace sp2 /\ word [ch "b"; ch "a"; ch "g"; ch "s"] bags
    /\ all PyStr.isspace sp3
    /\ (Re.lit (ch "x") sep = true \/ sep = times_sign)
    /\ all PyStr.isspace sp4 /\ wt <> [] /\ all digit_or_dot wt
    /\ word [ch "k"; ch "g"] kg.

(** [<label>:] and an item: the label is what stands before the colon. *)
Definition labelled (s label : str) : Prop :=
  label <> [] /\ all not_colon label
  /\ exists t, s = label ++ ch ":" :: t /\ item t.

(** The first match in a string and its label: the leftmost place where
    the pattern matches, with a label where it can have one. *)
Inductive first_match : str -> option str -> Prop :=
| first_labelled s l :
    labelled s l -> first_match s (Some l)
| first_plain s :
    (forall l, ~ labelled s l) -> item s -> first_match s None
| first_later c s r :
    (forall l, ~ labelled (c :: s) l) -> ~ item (c :: s) ->
    first_match s r -> first_match (c :: s) r.

(** The pattern matches nowhere in the string. *)
Definition no_match (s : str) : Prop :=
  forall pre suf, s = pre ++ suf -> ~ item suf /\ forall l, ~ labelled suf l.

End Shape.

(** ** The pattern as a scanner

    Every repetition of the pattern is followed by something its
    characters cannot start, so the backtracking matcher comes to one
    left-to-right scan; the definitions below are that scan. *)

Definition skip := PyStr.lstrip_with.

Definition whitespace : list char :=
  [9; 10; 11; 12; 13; 28; 29; 30; 31; 32; 133; 160; 5760; 8192; 8193; 8194; 8195;
   8196; 8197; 8198; 8199; 8200; 8201; 8202; 8232; 8233; 8239; 8287; 12288]%N.

Fixpoint take_while (p : char -> bool) (s : str) : str :=
  match s with
  | c :: s' => if p c then c :: take_while p s' else []
  | [] => []
  end.

Definition rejects (r : Re.re) (p : char -> bool) : Prop :=
  forall A c s caps (k : str -> Re.captures -> option A),
    p c = true -> Re.run r (c :: s) caps k = None.

Definition scan_plus (p : char -> bool) (s : str) : option (str * str) :=
  match s with
  | c :: s' => if p c then Some (c :: take_while p s', skip p s') else None
  | [] => None
  end.

Definition scan_chr (q : char -> bool) (s : str) : option str :=
  match s with
  | c :: s' => if q c then Some s' else None
  | [] => None
  end.

Definition is_sep (c : char) : bool := Re.lit (ch "x") c || Re.lit times_sign c.

Definition obind {A B} (o : option A) (f : A -> option B) : option B :=
  match o with Some a => f a | None => None end.

(** What the item part of the pattern takes from the front of a string:
    the groups 2 and 3 and what is left. *)

Definition scan_item (s : str) : option (str * str * str) :=
  obind (scan_plus PyStr.isdecimal (skip PyStr.isspace s)) (fun n =>
  obind (scan_chr (Re.lit (ch "b")) (skip PyStr.isspace (snd n))) (fun s1 =>
  obind (scan_chr (Re.lit (ch "a")) s1) (fun s2 =>
  obind (scan_chr (Re.lit (ch "g")) s2) (fun s3 =>
  obind (scan_chr (Re.lit (ch "s")) s3) (fun s4 =>
  obind (scan_chr is_sep (skip PyStr.isspace s4)) (fun s5 =>
  obind (scan_plus digit_or_dot (skip PyStr.isspace s5)) (fun w =>
  obind (scan_chr (Re.lit (ch "k")) (snd w)) (fun s6 =>
  obind (scan_chr (Re.lit (ch "g")) s6) (fun rest =>
  Some (fst n, fst w, rest)))))))))).

Definition scan_label (s : str) : option (str * str) :=
  obind (scan_plus not_colon s) (fun l =>
  obind (scan_chr (Re.lit (ch ":")) (snd l)) (fun t => Some (fst l, t))).

(** The match of the pattern at the front of a string: its label, if it
    has one. *)

Definition here (s : str) : option (option str) :=
  match obind (scan_label s)
              (fun lt => obind (scan_item (snd lt)) (fun _ => Some (fst lt))) with
  | Some l => Some (Some l)
  | None => obind (scan_item s) (fun _ => Some None)
  end.

(** The leftmost match. *)

Fixpoint first (s : str) : option (option str) :=
  match here s with
  | Some r => Some r
  | None =>
    match s with
    | _ :: s' => first s'
    | [] => None
    end
  end.

Definition head_fails (p : char -> bool) (s : str) : Prop :=
  match s with
  | [] => True
  | c :: _ => p c = false
  end.

(** ** The run, phase by phase *)

Section Phases.

Context {E : Env}.

Local Open Scope m_scope.

Definition update_event (b : option str * Z) : event := Update (fst b) (snd b).

Definition infer_event (p : Z * str) : event := Update (Some (snd p)) (fst p).

Definition is_update (e : event) : Prop :=
  match e with Update _ _ => True | _ => False end.

Definition passes (DB_PATH : str) : M unit :=
  rows <- query Sql.select_empty_descriptions ;;
  print (FoundRows (List.length rows)) ;;
  updates <- lift (collect_updates rows []) ;;
  print (ParsedRows (List.length updates)) ;;
  for_each updates (fun u => execute_update (fst u) (snd u)) ;;
  commit DB_PATH ;;
  print UpdatesApplied ;;
  remaining <- query Sql.select_empty_rates ;;
  inferred <- infer_loop remaining [] ;;
  commit DB_PATH ;;
  print (InferredRows (List.length inferred)) ;;
  let all_ids := map snd updates ++ map fst inferred in
  match all_ids with
  | _ :: _ =>
    (if Nat.leb (List.length all_ids) max_variable_number
     then ret tt else lift (Raise OperationalError)) ;;
    updated_rows <- query (Sql.select_in all_ids) ;;
    for_each updated_rows (fun ur => print (UpdatedRow ur))
  | [] => ret tt
  end ;;
  close ;;
  print Done.

(** What [main] does once the first batch of updates is executed. *)

Definition finish (DB_PATH : str) (updates : list (pyval * Z)) : M unit :=
  commit DB_PATH ;;
  print UpdatesApplied ;;
  remaining <- query Sql.select_empty_rates ;;
  inferred <- infer_loop remaining [] ;;
  commit DB_PATH ;;
  print (InferredRows (List.length inferred)) ;;
  let all_ids := map snd updates ++ map fst inferred in
  match all_ids with
  | _ :: _ =>
    (if Nat.leb (List.length all_ids) max_variable_number
     then ret tt else lift (Raise OperationalError)) ;;
    updated_rows <- query (Sql.select_in all_ids) ;;
    for_each updated_rows (fun ur => print (UpdatedRow ur))
  | [] => ret tt
  end ;;
  close ;;
  print Done.

Definition initial_content (path : str) (w : world) : content :=
  match files w path with
  | Some c => c
  | None => Bytes []
  end.

Definition after_connect (path : str) (w : world) : world :=
  mkWorld (match files w path with
           | Some _ => files w
           | None => set_path (files w) path (Some (Bytes []))
           end)
          (locked w) (table_of (initial_content path w))
          (trace w ++ [Connect path]).

Definition backup_events (path : str) (w : world) : list event :=
  [Connect path; OpenWrite (path ++ dot_bak);
   WriteFile (path ++ dot_bak) (initial_content path w);
   Print (BackupCreated (path ++ dot_bak))].

Definition after_backup (path : str) (w : world) : world :=
  mkWorld (set_path (set_path (files (after_connect path w)) (path ++ dot_bak)
                              (Some (Bytes [])))
                    (path ++ dot_bak) (Some (initial_content path w)))
          (locked w) (table_of (initial_content path w))
          (trace w ++ backup_events path w).

Definition report_events (rows : list (Z * option str * option str)) : list event :=
  map (fun ur => Print (UpdatedRow ur)) rows.

(** The events of the two passes, up to the count of inferred rows. *)

Definition pass_events (found : nat) (us : list (pyval * Z)) (bs : list (option str * Z))
           (inferred : list (Z * str)) : list event :=
  [Print (FoundRows found); Print (ParsedRows (List.length us))]
    ++ map update_event bs ++ [Commit; Print UpdatesApplied]
    ++ map infer_event inferred
    ++ [Commit; Print (InferredRows (List.length inferred))].

End Phases.

(** ** What an update leaves alone *)

(** [r'] is [r] up to its grain type. *)
Definition same_but_grain (r r' : row) : Prop :=
  id r' = id r /\ description r' = description r
  /\ rate_per_quintal r' = rate_per_quintal r /\ quantity r' = quantity r.

(** [r'] is [r] up to its grain type, and [r] itself unless its
    identifier is one of [ids]. *)
Definition kept_outside (ids : list Z) (r r' : row) : Prop :=
  same_but_grain r r' /\ (~ In (id r) ids -> r' = r).

(** The identifiers of the rows the two selections of [main] return. *)
Definition empty_ids (t : table) : list Z := map id (filter Sql.grain_is_empty t).


(** The rows the report prints, in the order it prints them. *)
Fixpoint report_lines (evs : list event) : list (Z * option str * option str) :=
  match evs with
  | [] => []
  | Print (UpdatedRow ur) :: evs' => ur :: report_lines evs'
  | _ :: evs' => report_lines evs'
  end.

(** The identifiers the updates of a run were executed on, in order. *)
Fixpoint updated_ids (evs : list event) : list Z :=
  match evs with
  | [] => []
  | Update _ id_ :: evs' => id_ :: updated_ids evs'
  | _ :: evs' => updated_ids evs'
  end.

(** ** Worlds to run examples in *)

Definition example_path : str := Eval vm_compute in py "/tmp/mandi_app.db".

(** A machine whose only file is a database holding the table [t]. *)
Definition world_of (t : table) : world :=
  mkWorld (fun p => if str_eqb p example_path then Some (Image (Bytes []) t) else None)
          (fun _ => false) None [].

Definition Wheat : str := Eval vm_compute in py "Wheat".


Definition wheat_sale : str := Eval vm_compute in py "Wheat: 9 bags x 50kg".

(** A row without description and one whose description names Wheat, at
    one rate, both without grain type. *)
Definition inferred_then_parsed : table :=
  [mkRow 1 None 10 5 None; mkRow 2 (Some wheat_sale) 10 3 None].

(** ** More worlds *)




(** ** The summary lines of a run *)

(** The three counts a run prints, in the order it prints them. *)
Fixpoint counts (evs : list event) : list output :=
  match evs with
  | [] => []
  | Print (FoundRows n) :: evs' => FoundRows n :: counts evs'
  | Print (ParsedRows n) :: evs' => ParsedRows n :: counts evs'
  | Print (InferredRows n) :: evs' => InferredRows n :: counts evs'
  | _ :: evs' => counts evs'
  end.

(** A description whose structured payload gives a list as grain type. *)
Definition list_grain_payload : str :=
  Eval vm_compute in py "BillOfSupplyItems::[{%22grainType%22:[%22Wheat%22]}]".


(** ** Strings without the characters [strip] removes at their ends *)

(** The first character of [s], if there is one, is not one of [p]. *)
Definition head_ok (p : char -> bool) (s : str) : Prop :=
  match s with
  | [] => True
  | c :: _ => p c = false
  end.

(** ** The rows the candidate query counts *)




(** ** Rows up to their quantity *)

Definition same_but_quantity (r r' : row) : Prop :=
  id r' = id r /\ description r' = description r
  /\ rate_per_quintal r' = rate_per_quintal r /\ grain_type r' = grain_type r.

(** * Properties *)

(** ** The free-text pattern *)

Lemma star_greedy A (p : char -> bool) (k : str -> option A) :
  (forall c s, p c = true -> k (c :: s) = None) ->
  forall s, Re.star p s k = k (skip p s).
Proof.
  intros Hk s. induction s as [|c s IH]; simpl; [reflexivity|].
  destruct (p c) eqn:Hp; [|reflexivity].
  rewrite IH. destruct (k (skip p s)) eqn:Hs; [reflexivity|].
  now apply Hk.
Qed.

Lemma star_stuck A (p : char -> bool) (k : str -> option A) c s :
  p c = false -> Re.star p (c :: s) k = k (c :: s).
Proof. intros Hp. simpl. now rewrite Hp. Qed.

Lemma isspace_cases c : PyStr.isspace c = true -> In c whitespace.
Proof.
  unfold PyStr.isspace. intros H.
  repeat (apply orb_true_iff in H; destruct H as [H|H]);
    try (apply andb_true_iff in H; destruct H as [H1 H2];
         apply N.leb_le in H1; apply N.leb_le in H2);
    try apply N.eqb_eq in H; unfold whitespace; simpl.
  all: lia.
Qed.

Lemma on_whitespace (q : char -> bool) :
  forallb q whitespace = true -> forall c, PyStr.isspace c = true -> q c = true.
Proof.
  intros H c Hc. rewrite forallb_forall in H. apply H. now apply isspace_cases.
Qed.

Lemma space_not_decimal c : PyStr.isspace c = true -> PyStr.isdecimal c = false.
Proof.
  intros H. apply negb_true_iff.
  revert c H. apply on_whitespace. vm_compute. reflexivity.
Qed.

Lemma space_not_dd c : PyStr.isspace c = true -> digit_or_dot c = false.
Proof.
  intros H. apply negb_true_iff.
  revert c H. apply on_whitespace. vm_compute. reflexivity.
Qed.

Lemma space_not_lit a c :
  forallb (fun d => negb (Re.lit a d)) whitespace = true ->
  PyStr.isspace c = true -> Re.lit a c = false.
Proof.
  intros Ha H. apply negb_true_iff. revert c H. now apply on_whitespace.
Qed.

Lemma decimal_not_space c : PyStr.isdecimal c = true -> PyStr.isspace c = false.
Proof.
  intros H. destruct (PyStr.isspace c) eqn:Hs; [|reflexivity].
  apply space_not_decimal in Hs. congruence.
Qed.

(** A literal matches finitely many characters. *)

Lemma lit_cases a c : Re.lit a c = true -> In c (Re.ignorecase a).
Proof.
  unfold Re.lit. intros H. apply existsb_exists in H.
  destruct H as [d [Hd He]]. apply N.eqb_eq in He. now subst.
Qed.

Lemma not_lit (q : char -> bool) a :
  forallb (fun d => negb (q d)) (Re.ignorecase a) = true ->
  forall c, q c = true -> Re.lit a c = false.
Proof.
  intros H c Hq. destruct (Re.lit a c) eqn:Hl; [|reflexivity].
  apply lit_cases in Hl. rewrite forallb_forall in H.
  specialize (H c Hl). rewrite Hq in H. discriminate.
Qed.

Lemma decimal_not_b c : PyStr.isdecimal c = true -> Re.lit (ch "b") c = false.
Proof. apply not_lit. vm_compute. reflexivity. Qed.

Lemma dd_not_k c : digit_or_dot c = true -> Re.lit (ch "k") c = false.
Proof. apply not_lit. vm_compute. reflexivity. Qed.

Lemma lit_colon c : Re.lit (ch ":") c = (c =? ch ":")%N.
Proof. unfold Re.lit. simpl. now rewrite orb_false_r. Qed.


(** ** Determinism of the pattern *)

Lemma take_skip p s : take_while p s ++ skip p s = s.
Proof. induction s as [|c s IH]; simpl; [reflexivity|]. destruct (p c); simpl; congruence. Qed.

Lemma firstn_take_while p s :
  firstn (List.length s - List.length (skip p s)) s = take_while p s.
Proof.
  rewrite <- (take_skip p s) at 1 3. rewrite length_app, Nat.add_sub.
  now rewrite firstn_app, Nat.sub_diag, firstn_all, firstn_O, app_nil_r.
Qed.

(** [r] cannot start on a character of [p]. *)

Lemma rejects_chr q p : (forall c, p c = true -> q c = false) -> rejects (Re.Chr q) p.
Proof. intros H A c s caps k Hc. simpl. now rewrite H. Qed.

Lemma rejects_plus q p : (forall c, p c = true -> q c = false) -> rejects (Re.Plus q) p.
Proof. intros H A c s caps k Hc. simpl. now rewrite H. Qed.

Lemma rejects_cat a b p : rejects a p -> rejects (Re.Cat a b) p.
Proof. intros H A c s caps k Hc. simpl. now apply H. Qed.

Lemma rejects_group n a p : rejects a p -> rejects (Re.Group n a) p.
Proof. intros H A c s caps k Hc. simpl. now apply H. Qed.

Lemma rejects_alt a b p : rejects a p -> rejects b p -> rejects (Re.Alt a b) p.
Proof. intros Ha Hb A c s caps k Hc. simpl. rewrite Ha by assumption. now apply Hb. Qed.

Lemma rejects_star_cat q b p :
  (forall c, p c = true -> q c = false) -> rejects b p -> rejects (Re.Cat (Re.Star q) b) p.
Proof.
  intros H Hb A c s caps k Hc. cbn [Re.run].
  rewrite star_stuck by now apply H. now apply Hb.
Qed.

Lemma run_star_cat A p b s caps (k : str -> Re.captures -> option A) :
  rejects b p ->
  Re.run (Re.Cat (Re.Star p) b) s caps k = Re.run b (skip p s) caps k.
Proof.
  intros Hb. cbn [Re.run]. rewrite star_greedy; [reflexivity|].
  intros c r Hc. now apply Hb.
Qed.

Lemma run_plus_cat A n p b s caps (k : str -> Re.captures -> option A) :
  rejects b p ->
  Re.run (Re.Cat (Re.Group n (Re.Plus p)) b) s caps k
  = match scan_plus p s with
    | Some (g, s') => Re.run b s' ((n, g) :: caps) k
    | None => None
    end.
Proof.
  intros Hb. cbn [Re.run]. destruct s as [|c s]; [reflexivity|]. simpl scan_plus.
  destruct (p c) eqn:Hp; [|reflexivity].
  rewrite star_greedy.
  - pose proof (firstn_take_while p (c :: s)) as H.
    simpl skip in H. simpl take_while in H. rewrite Hp in H.
    now rewrite H.
  - intros d r Hd. now apply Hb.
Qed.

Lemma run_chr_cat A q b s caps (k : str -> Re.captures -> option A) :
  Re.run (Re.Cat (Re.Chr q) b) s caps k
  = match scan_chr q s with
    | Some s' => Re.run b s' caps k
    | None => None
    end.
Proof. destruct s as [|c s]; simpl; [reflexivity|]. now destruct (q c). Qed.

Lemma run_chr A q s caps (k : str -> Re.captures -> option A) :
  Re.run (Re.Chr q) s caps k
  = match scan_chr q s with
    | Some s' => k s' caps
    | None => None
    end.
Proof. destruct s as [|c s]; simpl; [reflexivity|]. now destruct (q c). Qed.

Lemma run_assoc A a b c s caps (k : str -> Re.captures -> option A) :
  Re.run (Re.Cat (Re.Cat a b) c) s caps k = Re.run (Re.Cat a (Re.Cat b c)) s caps k.
Proof. reflexivity. Qed.

Lemma run_sep_cat A b s caps (k : str -> Re.captures -> option A) :
  Re.run (Re.Cat (Re.Alt (Re.Chr (Re.lit (ch "x"))) (Re.Chr (Re.lit times_sign))) b) s caps k
  = match scan_chr is_sep s with
    | Some s' => Re.run b s' caps k
    | None => None
    end.
Proof.
  destruct s as [|c s]; cbn [Re.run scan_chr]; [reflexivity|]. unfold is_sep.
  destruct (Re.lit (ch "x") c) eqn:Hx; cbn [orb].
  - destruct (Re.run b s caps k) eqn:Hr; [reflexivity|].
    destruct (Re.lit times_sign c); reflexivity.
  - now destruct (Re.lit times_sign c).
Qed.

Lemma run_item A s caps (k : str -> Re.captures -> option A) :
  Re.run item_re s caps k
  = match scan_item s with
    | Some (g2, g3, rest) => k rest ((3, g3) :: (2, g2) :: caps)
    | None => None
    end.
Proof.
  unfold item_re, scan_item. cbn [Re.cat Re.word map].
  rewrite run_star_cat
    by (apply rejects_cat, rejects_group, rejects_plus, space_not_decimal).
  rewrite run_plus_cat
    by (apply rejects_star_cat; [apply decimal_not_space|];
        do 2 apply rejects_cat; apply rejects_chr, decimal_not_b).
  destruct (scan_plus PyStr.isdecimal (skip PyStr.isspace s)) as [[g2 s2]|];
    cbn [obind fst snd]; [|reflexivity].
  rewrite run_star_cat
    by (do 2 apply rejects_cat; apply rejects_chr; intros c Hc;
        apply space_not_lit; [vm_compute; reflexivity | exact Hc]).
  rewrite run_assoc, run_chr_cat.
  destruct (scan_chr (Re.lit (ch "b")) (skip PyStr.isspace s2)) as [s3|];
    cbn [obind]; [|reflexivity].
  rewrite run_assoc, run_chr_cat.
  destruct (scan_chr (Re.lit (ch "a")) s3) as [s4|]; cbn [obind]; [|reflexivity].
  rewrite run_assoc, run_chr_cat.
  destruct (scan_chr (Re.lit (ch "g")) s4) as [s5|]; cbn [obind]; [|reflexivity].
  rewrite run_chr_cat.
  destruct (scan_chr (Re.lit (ch "s")) s5) as [s6|]; cbn [obind]; [|reflexivity].
  rewrite run_star_cat
    by (apply rejects_cat, rejects_alt; apply rejects_chr; intros c Hc;
        apply space_not_lit; try exact Hc; vm_compute; reflexivity).
  rewrite run_sep_cat.
  destruct (scan_chr is_sep (skip PyStr.isspace s6)) as [s7|]; cbn [obind]; [|reflexivity].
  rewrite run_star_cat by (apply rejects_cat, rejects_group, rejects_plus, space_not_dd).
  rewrite run_plus_cat by (apply rejects_cat, rejects_chr, dd_not_k).
  destruct (scan_plus digit_or_dot (skip PyStr.isspace s7)) as [[g3 s8]|];
    cbn [obind fst snd]; [|reflexivity].
  rewrite run_chr_cat.
  destruct (scan_chr (Re.lit (ch "k")) s8) as [s9|]; cbn [obind]; [|reflexivity].
  rewrite run_chr.
  destruct (scan_chr (Re.lit (ch "g")) s9) as [s10|]; cbn [obind]; reflexivity.
Qed.

(** *** The label and the whole pattern *)

Lemma run_opt_cat A a b s caps (k : str -> Re.captures -> option A) :
  Re.run (Re.Cat (Re.Opt a) b) s caps k
  = match Re.run (Re.Cat a b) s caps k with
    | Some x => Some x
    | None => Re.run b s caps k
    end.
Proof. reflexivity. Qed.

Lemma match_here_label s :
  option_map (Re.lookup 1) (Re.match_here simple_pattern s) = here s.
Proof.
  unfold Re.match_here, simple_pattern, label_re, here, scan_label.
  rewrite run_opt_cat, run_assoc.
  rewrite run_plus_cat
    by (apply rejects_cat, rejects_chr; intros c Hc; rewrite lit_colon;
        unfold not_colon in Hc; now apply negb_true_iff in Hc).
  assert (Hplain :
    option_map (Re.lookup 1) (Re.run item_re s [] (fun _ caps => Some caps))
    = obind (scan_item s) (fun _ => Some None)).
  { rewrite run_item. now destruct (scan_item s) as [[[g2 g3] rest]|]. }
  destruct (scan_plus not_colon s) as [[l s1]|]; cbn [obind fst snd]; [|exact Hplain].
  rewrite run_chr_cat.
  destruct (scan_chr (Re.lit (ch ":")) s1) as [t|]; cbn [obind fst snd]; [|exact Hplain].
  rewrite run_item.
  destruct (scan_item t) as [[[g2 g3] rest]|]; cbn [obind]; [reflexivity | exact Hplain].
Qed.

Lemma search_first s pos :
  option_map (fun m => Re.group m 1) (Re.search_from simple_pattern pos s) = first s.
Proof.
  revert pos. induction s as [|c s IH]; intros pos; cbn [Re.search_from first];
    rewrite <- match_here_label;
    destruct (Re.match_here simple_pattern _) as [caps|]; cbn [option_map];
    try reflexivity.
  apply IH.
Qed.

Lemma scan_plus_nonempty p s g r : scan_plus p s = Some (g, r) -> g <> [].
Proof.
  destruct s as [|c s]; simpl; [discriminate|].
  destruct (p c); [|discriminate]. intros H; inversion H. discriminate.
Qed.

Lemma here_label_nonempty s l : here s = Some (Some l) -> l <> [].
Proof.
  unfold here, scan_label.
  destruct (scan_plus not_colon s) as [[g r]|] eqn:Hp; cbn [obind fst snd].
  - destruct (scan_chr (Re.lit (ch ":")) r) as [t|]; cbn [obind fst snd].
    + destruct (scan_item t); cbn [obind].
      * intros H; inversion H; subst. eapply scan_plus_nonempty; eauto.
      * destruct (scan_item s); cbn [obind]; discriminate.
    + destruct (scan_item s); cbn [obind]; discriminate.
  - destruct (scan_item s); cbn [obind]; discriminate.
Qed.

Lemma first_label_nonempty s l : first s = Some (Some l) -> l <> [].
Proof.
  induction s as [|c s IH]; cbn [first].
  - destruct (here []) as [r|] eqn:Hh; [|discriminate].
    intros H; inversion H; subst. eapply here_label_nonempty; eauto.
  - destruct (here (c :: s)) as [r|] eqn:Hh; [|exact IH].
    intros H; inversion H; subst. eapply here_label_nonempty; eauto.
Qed.

(** The parser in terms of the leftmost match. *)

Lemma parse_simple_first desc :
  parse_from_simple_description desc
  = match first desc with
    | Some (Some l) => PStr (PyStr.strip l)
    | _ => PNone
    end.
Proof.
  unfold parse_from_simple_description, Re.search.
  rewrite <- (search_first desc 0).
  destruct (Re.search_from simple_pattern 0 desc) as [m|] eqn:Hs; cbn [option_map];
    [|reflexivity].
  destruct (Re.group m 1) as [g|] eqn:Hg; [|reflexivity].
  assert (Hne : g <> []).
  { apply (first_label_nonempty desc). rewrite <- (search_first desc 0), Hs.
    cbn [option_map]. now rewrite Hg. }
  destruct g as [|c g]; [congruence|]. reflexivity.
Qed.

(** *** The scanner and the shape the pattern describes *)

Lemma take_while_all p s : Shape.all p (take_while p s).
Proof.
  induction s as [|c s IH]; simpl; [constructor|].
  destruct (p c) eqn:Hp; constructor; assumption.
Qed.

Lemma skip_head_fails p s : head_fails p (skip p s).
Proof.
  induction s as [|c s IH]; simpl; [exact I|].
  destruct (p c) eqn:Hp; [exact IH | exact Hp].
Qed.

Lemma skip_app p sp r : Shape.all p sp -> head_fails p r -> skip p (sp ++ r) = r.
Proof.
  intros Hsp Hr. induction Hsp as [|c sp Hc _ IH]; simpl.
  - destruct r as [|d r]; [reflexivity|]. simpl in *. now rewrite Hr.
  - now rewrite Hc.
Qed.

Lemma take_while_app p sp r :
  Shape.all p sp -> head_fails p r -> take_while p (sp ++ r) = sp.
Proof.
  intros Hsp Hr. induction Hsp as [|c sp Hc _ IH]; simpl.
  - destruct r as [|d r]; [reflexivity|]. simpl in *. now rewrite Hr.
  - rewrite Hc. now f_equal.
Qed.

Lemma scan_plus_app p n r :
  n <> [] -> Shape.all p n -> head_fails p r -> scan_plus p (n ++ r) = Some (n, r).
Proof.
  intros Hne Hn Hr. destruct n as [|c n]; [congruence|].
  inversion Hn as [|? ? Hc Hn']; subst. simpl. rewrite Hc.
  now rewrite take_while_app, skip_app.
Qed.

Lemma scan_plus_inv p s g r :
  scan_plus p s = Some (g, r) ->
  s = g ++ r /\ g <> [] /\ Shape.all p g /\ head_fails p r.
Proof.
  destruct s as [|c s]; simpl; [discriminate|].
  destruct (p c) eqn:Hp; [|discriminate].
  intros H; inversion H; subst. repeat split.
  - simpl. now rewrite take_skip.
  - discriminate.
  - constructor; [exact Hp | apply take_while_all].
  - apply skip_head_fails.
Qed.

Lemma scan_chr_inv q s r : scan_chr q s = Some r -> exists c, s = c :: r /\ q c = true.
Proof.
  destruct s as [|c s]; simpl; [discriminate|].
  destruct (q c) eqn:Hq; [|discriminate]. intros H; inversion H; subst. eauto.
Qed.

Lemma head_fails_app (q p : char -> bool) sp r :
  Shape.all q sp -> (forall c, q c = true -> p c = false) ->
  head_fails p r -> head_fails p (sp ++ r).
Proof.
  intros Hsp Hqp Hr. destruct Hsp as [|c sp Hc _]; simpl; [exact Hr|]. now apply Hqp.
Qed.

Lemma is_sep_iff c : is_sep c = true <-> Re.lit (ch "x") c = true \/ c = times_sign.
Proof.
  unfold is_sep. rewrite orb_true_iff. split; intros [H|H]; auto.
  - right. apply lit_cases in H. vm_compute in H.
    destruct H as [H|[]]. now subst.
  - right. subst. reflexivity.
Qed.

Lemma obind_some A B (o : option A) (f : A -> option B) b :
  obind o f = Some b -> exists a, o = Some a /\ f a = Some b.
Proof. destruct o as [a|]; simpl; [eauto | discriminate]. Qed.

Lemma scan_item_shape s x : scan_item s = Some x -> Shape.item s.
Proof.
  unfold scan_item. intros H.
  apply obind_some in H; destruct H as [[n s2] [Hn H]].
  apply obind_some in H; destruct H as [s3 [Hb H]].
  apply obind_some in H; destruct H as [s4 [Ha H]].
  apply obind_some in H; destruct H as [s5 [Hg H]].
  apply obind_some in H; destruct H as [s6 [Hs H]].
  apply obind_some in H; destruct H as [s7 [Hx H]].
  apply obind_some in H; destruct H as [[wt s8] [Hw H]].
  apply obind_some in H; destruct H as [s9 [Hk H]].
  apply obind_some in H; destruct H as [rest [Hg' _]].
  cbn [fst snd] in *.
  apply scan_plus_inv in Hn; destruct Hn as [En [Hn1 [Hn2 _]]].
  apply scan_chr_inv in Hb; destruct Hb as [cb [Eb Hb]].
  apply scan_chr_inv in Ha; destruct Ha as [ca [Ea Ha]].
  apply scan_chr_inv in Hg; destruct Hg as [cg [Eg Hg]].
  apply scan_chr_inv in Hs; destruct Hs as [cs [Es Hs]].
  apply scan_chr_inv in Hx; destruct Hx as [cx [Ex Hx]].
  apply scan_plus_inv in Hw; destruct Hw as [Ew [Hw1 [Hw2 _]]].
  apply scan_chr_inv in Hk; destruct Hk as [ck [Ek Hk]].
  apply scan_chr_inv in Hg'; destruct Hg' as [cg' [Eg' Hg']].
  exists (take_while PyStr.isspace s), n, (take_while PyStr.isspace s2),
    [cb; ca; cg; cs], (take_while PyStr.isspace s6), cx,
    (take_while PyStr.isspace s7), wt, [ck; cg'], rest.
  repeat split; try apply take_while_all; try assumption.
  - rewrite <- (take_skip PyStr.isspace s) at 1. f_equal. rewrite En. f_equal.
    rewrite <- (take_skip PyStr.isspace s2) at 1. f_equal. rewrite Eb, Ea, Eg, Es.
    cbn [app]. do 4 f_equal.
    rewrite <- (take_skip PyStr.isspace s6) at 1. f_equal. rewrite Ex. f_equal.
    rewrite <- (take_skip PyStr.isspace s7) at 1. f_equal. rewrite Ew. f_equal.
    rewrite Ek, Eg'. reflexivity.
  - repeat constructor; assumption.
  - now apply is_sep_iff.
  - repeat constructor; assumption.
Qed.

Lemma shape_scan_item s : Shape.item s -> exists x, scan_item s = Some x.
Proof.
  intros (sp1 & n & sp2 & bags & sp3 & sep & sp4 & wt & kg & rest
          & E & H1 & Hn & Hn' & H2 & Hb & H3 & Hsep & H4 & Hw & Hw' & Hk).
  inversion Hb as [|? cb ? bs1 Lb Hb1]; subst.
  inversion Hb1 as [|? ca ? bs2 La Hb2]; subst.
  inversion Hb2 as [|? cg ? bs3 Lg Hb3]; subst.
  inversion Hb3 as [|? cs ? bs4 Ls Hb4]; subst.
  inversion Hb4; subst.
  inversion Hk as [|? ck ? ks1 Lk Hk1]; subst.
  inversion Hk1 as [|? cg' ? ks2 Lg' Hk2]; subst.
  inversion Hk2; subst.
  change 98%N with (ch "b") in Lb. change 97%N with (ch "a") in La.
  change 103%N with (ch "g") in Lg, Lg'. change 115%N with (ch "s") in Ls.
  change 107%N with (ch "k") in Lk.
  assert (Sb : PyStr.isspace cb = false).
  { destruct (PyStr.isspace cb) eqn:Hc; [|reflexivity].
    rewrite space_not_lit in Lb; [discriminate | vm_compute; reflexivity | exact Hc]. }
  assert (Ssep : PyStr.isspace sep = false).
  { destruct (PyStr.isspace sep) eqn:Hc; [|reflexivity].
    destruct Hsep as [Hx|Hx].
    - rewrite space_not_lit in Hx; [discriminate | vm_compute; reflexivity | exact Hc].
    - subst. vm_compute in Hc. discriminate. }
  destruct n as [|n0 n]; [congruence|].
  destruct wt as [|w0 wt]; [congruence|].
  inversion Hn' as [|? ? Hn0 _]; subst.
  inversion Hw' as [|? ? Hw0 _]; subst.
  unfold scan_item. cbn [app].
  rewrite (@skip_app PyStr.isspace sp1); [|exact H1|].
  2:{ simpl. now apply decimal_not_space. }
  change (n0 :: n ++ ?r) with ((n0 :: n) ++ r).
  rewrite scan_plus_app; [|discriminate|exact Hn'|].
  2:{ apply head_fails_app with (q := PyStr.isspace); [exact H2| |].
      - intros c Hc. now apply space_not_decimal.
      - simpl. destruct (PyStr.isdecimal cb) eqn:Hd; [|reflexivity].
        rewrite decimal_not_b in Lb; [discriminate | exact Hd]. }
  cbn [obind fst snd].
  rewrite (@skip_app PyStr.isspace sp2); [|exact H2|exact Sb].
  cbn [scan_chr obind]. rewrite Lb. cbn [scan_chr obind]. rewrite La.
  cbn [scan_chr obind]. rewrite Lg. cbn [scan_chr obind]. rewrite Ls. cbn [obind].
  rewrite (@skip_app PyStr.isspace sp3); [|exact H3|exact Ssep].
  cbn [scan_chr]. rewrite (proj2 (is_sep_iff sep) Hsep). cbn [obind].
  rewrite (@skip_app PyStr.isspace sp4); [|exact H4|].
  2:{ simpl. destruct (PyStr.isspace w0) eqn:Hc; [|reflexivity].
      rewrite space_not_dd in Hw0; [discriminate | exact Hc]. }
  change (w0 :: wt ++ ?r) with ((w0 :: wt) ++ r).
  rewrite scan_plus_app; [|discriminate|exact Hw'|].
  2:{ simpl. destruct (digit_or_dot ck) eqn:Hd; [|reflexivity].
      rewrite dd_not_k in Lk; [discriminate | exact Hd]. }
  cbn [obind fst snd scan_chr]. rewrite Lk. cbn [obind scan_chr]. rewrite Lg'.
  cbn [obind]. eauto.
Qed.

Lemma scan_label_inv s l t :
  scan_label s = Some (l, t) -> l <> [] /\ Shape.all not_colon l /\ s = l ++ ch ":" :: t.
Proof.
  unfold scan_label. intros H.
  apply obind_some in H; destruct H as [[g r] [Hp H]].
  apply obind_some in H; destruct H as [t' [Hc H]].
  cbn [fst snd] in *. inversion H; subst.
  apply scan_plus_inv in Hp; destruct Hp as [E [Hne [Hall _]]].
  apply scan_chr_inv in Hc; destruct Hc as [c [Ec Hc]].
  rewrite lit_colon in Hc. apply N.eqb_eq in Hc. subst. auto.
Qed.

Lemma scan_label_app l t :
  l <> [] -> Shape.all not_colon l -> scan_label (l ++ ch ":" :: t) = Some (l, t).
Proof.
  intros Hne Hall. unfold scan_label.
  rewrite scan_plus_app; [|exact Hne|exact Hall|reflexivity].
  cbn [obind fst snd scan_chr]. rewrite lit_colon, N.eqb_refl. reflexivity.
Qed.

Lemma labelled_scan s l :
  Shape.labelled s l <->
  exists t x, scan_label s = Some (l, t) /\ scan_item t = Some x.
Proof.
  split.
  - intros (Hne & Hall & t & E & Hi). subst.
    destruct (shape_scan_item Hi) as [x Hx].
    exists t, x. split; [now apply scan_label_app | exact Hx].
  - intros (t & x & Hl & Hx). apply scan_label_inv in Hl.
    destruct Hl as (Hne & Hall & E).
    repeat split; try assumption. exists t. split; [exact E|].
    eapply scan_item_shape; eauto.
Qed.

Lemma here_spec s :
  match here s with
  | Some (Some l) => Shape.labelled s l
  | Some None => (forall l, ~ Shape.labelled s l) /\ Shape.item s
  | None => (forall l, ~ Shape.labelled s l) /\ ~ Shape.item s
  end.
Proof.
  unfold here.
  assert (Hplain : forall (Hno : forall l, ~ Shape.labelled s l),
    match obind (scan_item s) (fun _ => Some (@None str)) with
    | Some (Some l) => Shape.labelled s l
    | Some None => (forall l, ~ Shape.labelled s l) /\ Shape.item s
    | None => (forall l, ~ Shape.labelled s l) /\ ~ Shape.item s
    end).
  { intros Hno. destruct (scan_item s) as [x|] eqn:Hx; cbn [obind].
    - split; [exact Hno | eapply scan_item_shape; eauto].
    - split; [exact Hno|]. intros Hi. apply shape_scan_item in Hi.
      destruct Hi as [y Hy]. congruence. }
  destruct (scan_label s) as [[l t]|] eqn:Hl; cbn [obind fst snd].
  - destruct (scan_item t) as [x|] eqn:Hx; cbn [obind].
    + apply labelled_scan. eauto.
    + apply Hplain. intros l' Hl'. apply labelled_scan in Hl'.
      destruct Hl' as (t' & x' & Hl' & Hx'). congruence.
  - apply Hplain. intros l' Hl'. apply labelled_scan in Hl'.
    destruct Hl' as (t' & x' & Hl' & Hx'). congruence.
Qed.

Lemma first_spec s :
  match first s with
  | Some r => Shape.first_match s r
  | None => Shape.no_match s
  end.
Proof.
  induction s as [|c s IH]; cbn [first].
  - pose proof (here_spec []) as H. destruct (here []) as [[l|]|].
    + now constructor.
    + destruct H. now constructor.
    + destruct H as [Hl Hi]. intros pre suf E.
      symmetry in E. apply app_eq_nil in E. destruct E; subst. auto.
  - pose proof (here_spec (c :: s)) as H. destruct (here (c :: s)) as [[l|]|].
    + now constructor.
    + destruct H. now constructor.
    + destruct H as [Hl Hi]. destruct (first s) as [r|].
      * now constructor.
      * intros pre suf E. destruct pre as [|d pre]; simpl in E.
        -- subst. auto.
        -- inversion E; subst. eapply IH; eauto.
Qed.

Lemma labelled_functional s l1 l2 :
  Shape.labelled s l1 -> Shape.labelled s l2 -> l1 = l2.
Proof.
  intros H1 H2. apply labelled_scan in H1, H2.
  destruct H1 as (t1 & x1 & E1 & _), H2 as (t2 & x2 & E2 & _). congruence.
Qed.

Lemma first_match_functional s r1 r2 :
  Shape.first_match s r1 -> Shape.first_match s r2 -> r1 = r2.
Proof.
  intros H1. revert r2. induction H1 as [s l Hl|s Hno Hi|c s r Hno Hi H IH]; intros r2 H2.
  - inversion H2 as [? l2 Hl2|? Hno2 Hi2|? ? ? Hno2 Hi2 H2']; subst.
    + f_equal. eapply labelled_functional; eauto.
    + exfalso. eapply Hno2; eauto.
    + exfalso. eapply Hno2; eauto.
  - inversion H2 as [? l2 Hl2|? Hno2 Hi2|? ? ? Hno2 Hi2 H2']; subst.
    + exfalso. eapply Hno; eauto.
    + reflexivity.
    + contradiction.
  - inversion H2 as [? l2 Hl2|? Hno2 Hi2|? ? ? Hno2 Hi2 H2']; subst.
    + exfalso. eapply Hno; eauto.
    + contradiction.
    + now apply IH.
Qed.

Lemma first_match_not_no_match s r : Shape.first_match s r -> ~ Shape.no_match s.
Proof.
  intros H. induction H as [s l Hl|s Hno Hi|c s r Hno Hi H IH]; intros Hn.
  - destruct (Hn [] s eq_refl) as [_ Hl']. eapply Hl'; eauto.
  - destruct (Hn [] s eq_refl) as [Hi' _]. contradiction.
  - apply IH. intros pre suf E. apply (Hn (c :: pre) suf). simpl. now f_equal.
Qed.

Theorem parse_simple_spec desc :
  (forall l, Shape.first_match desc (Some l) ->
             parse_from_simple_description desc = PStr (PyStr.strip l))
  /\ (Shape.first_match desc None -> parse_from_simple_description desc = PNone)
  /\ (Shape.no_match desc -> parse_from_simple_description desc = PNone)
  /\ ((exists l, Shape.first_match desc (Some l))
      \/ Shape.first_match desc None \/ Shape.no_match desc).
Proof.
  rewrite parse_simple_first. pose proof (first_spec desc) as H.
  destruct (first desc) as [r|].
  - split; [|split; [|split]].
    + intros l Hl. rewrite (first_match_functional H Hl). reflexivity.
    + intros Hn. rewrite (first_match_functional H Hn). reflexivity.
    + intros Hn. exfalso. eapply first_match_not_no_match; eauto.
    + destruct r as [l|]; eauto.
  - split; [|split; [|split]].
    + intros l Hl. exfalso. eapply first_match_not_no_match; eauto.
    + intros Hl. exfalso. eapply first_match_not_no_match; eauto.
    + reflexivity.
    + auto.
Qed.

(** ** The run *)

Section MainFacts.

Context {E : Env}.

Local Open Scope m_scope.

Lemma bind_unfold A B (c : M A) (f : A -> M B) w :
  bind c f w = match c w with
               | (Ok a, w') => f a w'
               | (Raise e, w') => (Raise e, w')
               end.
Proof. reflexivity. Qed.

Lemma parse_bos_ok desc : exists v, parse_from_bos_description desc = Ok v.
Proof.
  unfold parse_from_bos_description, try_except.
  destruct (parse_from_bos_description_try desc); eauto.
Qed.

Lemma parse_description_ok desc : exists v, parse_description desc = Ok v.
Proof.
  unfold parse_description.
  destruct (PyStr.startswith bos_prefix desc).
  - destruct (parse_bos_ok desc) as [v ->]. cbn [exc_bind].
    destruct (negb (Py.truthy v)); eauto.
  - cbn [exc_bind]. destruct (negb (Py.truthy PNone)); eauto.
Qed.

Lemma collect_updates_ok rows : forall acc, exists us, collect_updates rows acc = Ok us.
Proof.
  induction rows as [|[i d] rows IH]; intros acc; cbn [collect_updates]; eauto.
  destruct d as [[|c d]|]; auto.
  destruct (parse_description_ok (c :: d)) as [v ->]. cbn [exc_bind]. auto.
Qed.

Lemma execute_update_ok g i w t b :
  view w = Some t -> bind_text g = Ok b ->
  execute_update g i w
  = (Ok tt, mkWorld (files w) (locked w) (Some (Sql.update b i t))
                    (trace w ++ [Update b i])).
Proof.
  intros Hv Hb. unfold execute_update. rewrite bind_unfold. unfold lift.
  now rewrite Hb, Hv.
Qed.

Lemma execute_update_raise g i w e :
  bind_text g = Raise e -> execute_update g i w = (Raise e, w).
Proof.
  intros Hb. unfold execute_update. rewrite bind_unfold. unfold lift.
  now rewrite Hb.
Qed.

Lemma for_each_updates us : forall w t,
  view w = Some t ->
  match bind_all us with
  | Ok bs =>
    for_each us (fun u => execute_update (fst u) (snd u)) w
    = (Ok tt, mkWorld (files w) (locked w) (Some (apply_updates bs t))
                      (trace w ++ map update_event bs))
  | Raise e =>
    exists t' evs,
      for_each us (fun u => execute_update (fst u) (snd u)) w
      = (Raise e, mkWorld (files w) (locked w) (Some t') (trace w ++ evs))
      /\ Forall is_update evs
  end.
Proof.
  induction us as [|[g i] us IH]; intros w t Hv; cbn [bind_all for_each].
  - unfold ret. cbn [apply_updates fold_left map]. rewrite app_nil_r.
    destruct w; cbn in *. now subst.
  - destruct (bind_text g) as [b|e] eqn:Hb.
    + specialize (IH (mkWorld (files w) (locked w) (Some (Sql.update b i t))
                              (trace w ++ [Update b i])) (Sql.update b i t) eq_refl).
      destruct (bind_all us) as [bs|e].
      * rewrite bind_unfold. cbn [fst snd].
        rewrite (@execute_update_ok g i w t b Hv Hb), IH.
        cbn [files locked trace apply_updates fold_left map fst snd].
        rewrite <- app_assoc. reflexivity.
      * destruct IH as (t' & evs & IH & Hevs).
        exists t', (Update b i :: evs). rewrite bind_unfold. cbn [fst snd].
        rewrite (@execute_update_ok g i w t b Hv Hb), IH. cbn [files locked trace].
        rewrite <- app_assoc. split; [reflexivity|]. constructor; [exact I|exact Hevs].
    + exists t, []. rewrite app_nil_r, bind_unfold. cbn [fst snd].
      rewrite (@execute_update_raise g i w e Hb). split; [|constructor].
      destruct w; cbn in *. now subst.
Qed.

Lemma infer_loop_eq remaining : forall acc w t,
  view w = Some t ->
  infer_loop remaining acc w
  = (Ok (acc ++ snd (infer remaining t)),
     mkWorld (files w) (locked w) (Some (fst (infer remaining t)))
             (trace w ++ map infer_event (snd (infer remaining t)))).
Proof.
  induction remaining as [|[[i rate] qty] rem IH]; intros acc w t Hv;
    cbn [infer_loop infer].
  - unfold ret. cbn [fst snd map]. rewrite !app_nil_r. destruct w; cbn in *. now subst.
  - rewrite bind_unfold. unfold query at 1. rewrite Hv.
    destruct (candidate rate t) as [[g cnt]|].
    + rewrite bind_unfold.
      rewrite (@execute_update_ok (PStr g) i w t (Some g) Hv eq_refl).
      rewrite (IH _ _ (Sql.update (Some g) i t)) by reflexivity.
      destruct (infer rem (Sql.update (Some g) i t)) as [t' inf].
      cbn [fst snd files locked trace map]. rewrite <- !app_assoc. reflexivity.
    + apply IH. exact Hv.
Qed.

Lemma for_each_print A (f : A -> output) l : forall w,
  for_each l (fun x => print (f x)) w
  = (Ok tt, mkWorld (files w) (locked w) (view w)
                    (trace w ++ map (fun x => Print (f x)) l)).
Proof.
  induction l as [|x l IH]; intros w; cbn [for_each map].
  - unfold ret. rewrite app_nil_r. now destruct w.
  - rewrite bind_unfold. unfold print at 1, log. rewrite IH.
    cbn [files locked view trace]. rewrite <- app_assoc. reflexivity.
Qed.


(** *** The run, phase by phase *)

Lemma passes_split DB_PATH :
  passes DB_PATH
  = (rows <- query Sql.select_empty_descriptions ;;
     print (FoundRows (List.length rows)) ;;
     updates <- lift (collect_updates rows []) ;;
     print (ParsedRows (List.length updates)) ;;
     for_each updates (fun u => execute_update (fst u) (snd u)) ;;
     finish DB_PATH updates).
Proof. reflexivity. Qed.

Lemma main_split DB_PATH :
  main DB_PATH
  = (connect DB_PATH ;;
     open_rb DB_PATH ;;
     open_wb (DB_PATH ++ dot_bak) ;;
     data <- read DB_PATH ;;
     write (DB_PATH ++ dot_bak) data ;;
     print (BackupCreated (DB_PATH ++ dot_bak)) ;;
     passes DB_PATH).
Proof. reflexivity. Qed.

(** The content of the database file when the run reads it. *)

Lemma str_eqb_refl s : str_eqb s s = true.
Proof. unfold str_eqb. now destruct (list_eq_dec N.eq_dec s s). Qed.

Lemma str_eqb_eq a b : str_eqb a b = true <-> a = b.
Proof. unfold str_eqb. destruct (list_eq_dec N.eq_dec a b); split; congruence. Qed.

Lemma set_path_same A (f : str -> option A) p a : set_path f p a p = a.
Proof. unfold set_path. now rewrite str_eqb_refl. Qed.

Lemma path_not_bak path : str_eqb path (path ++ dot_bak) = false.
Proof.
  destruct (str_eqb path (path ++ dot_bak)) eqn:H; [|reflexivity].
  apply str_eqb_eq in H. apply (f_equal (@List.length _)) in H.
  rewrite length_app in H. simpl in H. lia.
Qed.


Lemma main_backup path w :
  main path w
  = if locked w path then (Raise OperationalError, w)
    else if locked w (path ++ dot_bak) then (Raise OSError, after_connect path w)
    else passes path (after_backup path w).
Proof.
  rewrite main_split. rewrite bind_unfold. unfold connect at 1.
  destruct (locked w path) eqn:Hl; [reflexivity|].
  assert (Hc : (match files w path with
          | Some c => (Ok tt, mkWorld (files w) (locked w) (table_of c) (trace w ++ [Connect path]))
          | None => (Ok tt, mkWorld (set_path (files w) path (Some (Bytes []))) (locked w) None
                                    (trace w ++ [Connect path]))
          end) = (Ok tt, after_connect path w)).
  { unfold after_connect, initial_content. now destruct (files w path). }
  rewrite Hc. clear Hc.
  assert (Hf : files (after_connect path w) path = Some (initial_content path w)).
  { unfold after_connect, initial_content. cbn [files].
    destruct (files w path) eqn:Hp; [exact Hp|].
    unfold set_path. now rewrite str_eqb_refl. }
  rewrite bind_unfold. unfold open_rb at 1. rewrite Hf.
  replace (locked (after_connect path w) path) with false by (symmetry; exact Hl).
  rewrite bind_unfold. unfold open_wb at 1.
  replace (locked (after_connect path w) (path ++ dot_bak)) with (locked w (path ++ dot_bak))
    by reflexivity.
  destruct (locked w (path ++ dot_bak)) eqn:Hb; [reflexivity|].
  rewrite bind_unfold. unfold read at 1. cbn [files].
  unfold set_path at 1. rewrite path_not_bak, Hf.
  rewrite bind_unfold. unfold write at 1. cbn [files locked view trace].
  rewrite bind_unfold. unfold print at 1, log. cbn [files locked view trace].
  unfold after_backup, backup_events.
  rewrite <- !app_assoc. unfold after_connect at 2 3 4. cbn [locked view trace].
  rewrite <- app_assoc. reflexivity.
Qed.

Lemma passes_no_table path w :
  view w = None -> passes path w = (Raise OperationalError, w).
Proof. intros Hv. unfold passes. rewrite bind_unfold. unfold query. now rewrite Hv. Qed.

Lemma passes_run path w t us :
  view w = Some t ->
  collect_updates (Sql.select_empty_descriptions t) [] = Ok us ->
  let found := List.length (Sql.select_empty_descriptions t) in
  match bind_all us with
  | Raise e =>
    exists t' evs,
      passes path w
      = (Raise e, mkWorld (files w) (locked w) (Some t')
                          (trace w ++ [Print (FoundRows found);
                                       Print (ParsedRows (List.length us))] ++ evs))
      /\ Forall is_update evs
  | Ok bs =>
    let t1 := apply_updates bs t in
    let t2 := fst (infer (Sql.select_empty_rates t1) t1) in
    let inferred := snd (infer (Sql.select_empty_rates t1) t1) in
    let fs := set_path (set_path (files w) path (Some (Image (initial_content path w) t1)))
                       path (Some (Image (Image (initial_content path w) t1) t2)) in
    let tr := trace w ++ pass_events found us bs inferred in
    let all_ids := map snd us ++ map fst inferred in
    passes path w
    = match all_ids with
      | [] => (Ok tt, mkWorld fs (locked w) (Some t2) (tr ++ [Close; Print Done]))
      | _ :: _ =>
        if Nat.leb (List.length all_ids) max_variable_number
        then (Ok tt, mkWorld fs (locked w) (Some t2)
                             (tr ++ report_events (Sql.select_in all_ids t2)
                                 ++ [Close; Print Done]))
        else (Raise OperationalError, mkWorld fs (locked w) (Some t2) tr)
      end
  end.
Proof.
  intros Hv Hc found.
  set (w3 := mkWorld (files w) (locked w) (view w)
                     ((trace w ++ [Print (FoundRows found)])
                        ++ [Print (ParsedRows (List.length us))])).
  assert (Hv3 : view w3 = Some t) by exact Hv.
  pose proof (for_each_updates us w3 Hv3) as Hu.
  assert (Hpre :
    passes path w
    = match for_each us (fun u => execute_update (fst u) (snd u)) w3 with
      | (Ok a, w') => finish path us w'
      | (Raise e, w') => (Raise e, w')
      end).
  { rewrite passes_split.
    rewrite bind_unfold. unfold query at 1. rewrite Hv.
    rewrite bind_unfold. unfold print at 1, log.
    rewrite bind_unfold. unfold lift at 1. rewrite Hc.
    rewrite bind_unfold. unfold print at 1, log. cbn [files locked view trace].
    rewrite bind_unfold. fold found. fold w3. reflexivity. }
  destruct (bind_all us) as [bs|e].
  - cbv beta iota zeta.
    set (t1 := apply_updates bs t).
    set (t2 := fst (infer (Sql.select_empty_rates t1) t1)).
    set (inferred := snd (infer (Sql.select_empty_rates t1) t1)).
    set (all_ids := map snd us ++ map fst inferred).
    set (tr := trace w ++ pass_events found us bs inferred).
    set (fs := set_path (set_path (files w) path (Some (Image (initial_content path w) t1)))
                        path (Some (Image (Image (initial_content path w) t1) t2))).
    rewrite Hpre, Hu. clear Hu Hpre. unfold finish.
    rewrite bind_unfold. unfold commit at 1. cbn [files locked view trace].
    rewrite bind_unfold. unfold print at 1, log. cbn [files locked view trace].
    rewrite bind_unfold. unfold query at 1. cbn [view].
    rewrite bind_unfold.
    fold t1.
    erewrite (@infer_loop_eq (Sql.select_empty_rates t1) [] _ t1) by reflexivity.
    cbn [files locked view trace app].
    fold t2. fold inferred.
    rewrite bind_unfold. unfold commit at 1. cbn [files locked view trace].
    unfold w3. cbn [files locked view trace]. rewrite set_path_same.
    rewrite bind_unfold. unfold print at 1, log. cbn [files locked view trace].
    fold (initial_content path w). fold fs.
    fold all_ids. destruct all_ids as [|i0 ids] eqn:Hids.
    + rewrite bind_unfold. unfold ret at 1.
      rewrite bind_unfold. unfold close at 1, log. cbn [files locked view trace].
      unfold print, log. cbn [files locked view trace].
      do 2 f_equal. unfold tr, pass_events.
      repeat (rewrite <- !app_assoc; cbn [app]). reflexivity.
    + rewrite bind_unfold. rewrite bind_unfold.
      destruct (Nat.leb (List.length (i0 :: ids)) max_variable_number).
      * unfold ret at 1. rewrite bind_unfold. unfold query at 1. cbn [view].
        rewrite for_each_print. cbn [files locked view trace].
        rewrite bind_unfold. unfold close at 1, log. cbn [files locked view trace].
        unfold print, log. cbn [files locked view trace].
        do 2 f_equal. unfold tr, pass_events, report_events.
        repeat (rewrite <- !app_assoc; cbn [app]). reflexivity.
      * unfold lift at 1. do 2 f_equal. unfold tr, pass_events.
        repeat (rewrite <- !app_assoc; cbn [app]). reflexivity.
  - destruct Hu as (t' & evs & Hu & Hevs). exists t', evs.
    rewrite Hpre, Hu. unfold w3. cbn [files locked view trace].
    rewrite <- !app_assoc. split; [reflexivity|exact Hevs].
Qed.

End MainFacts.

(** ** The table under updates *)

Lemma kept_outside_refl ids r : kept_outside ids r r.
Proof. unfold kept_outside, same_but_grain. tauto. Qed.

Lemma kept_outside_trans ids r1 r2 r3 :
  kept_outside ids r1 r2 -> kept_outside ids r2 r3 -> kept_outside ids r1 r3.
Proof.
  intros [[Hi [Hd [Hr Hq]]] H1] [[Hi' [Hd' [Hr' Hq']]] H2].
  split; [unfold same_but_grain; repeat split; congruence|].
  intros Hn. rewrite H2; [now apply H1 | now rewrite Hi].
Qed.

Lemma kept_outside_incl ids ids' r r' :
  incl ids ids' -> kept_outside ids r r' -> kept_outside ids' r r'.
Proof. intros Hs [H1 H2]. split; [exact H1|]. intros Hn. apply H2. intros Hi. apply Hn, Hs, Hi. Qed.

Lemma Forall2_refl_kept ids t : Forall2 (kept_outside ids) t t.
Proof. induction t; constructor; auto using kept_outside_refl. Qed.

Lemma Forall2_trans_kept ids t1 : forall t2 t3,
  Forall2 (kept_outside ids) t1 t2 -> Forall2 (kept_outside ids) t2 t3 ->
  Forall2 (kept_outside ids) t1 t3.
Proof.
  induction t1 as [|r t1 IH]; intros t2 t3 H12 H23; inversion H12; subst;
    inversion H23; subst; constructor; eauto using kept_outside_trans.
Qed.

Lemma Forall2_incl_kept ids ids' t t' :
  incl ids ids' -> Forall2 (kept_outside ids) t t' -> Forall2 (kept_outside ids') t t'.
Proof. intros Hs H. induction H; constructor; eauto using kept_outside_incl. Qed.

Lemma update_kept g i t : Forall2 (kept_outside [i]) t (Sql.update g i t).
Proof.
  induction t as [|r t IH]; cbn [Sql.update map]; constructor; [|exact IH].
  destruct (Z.eqb_spec (id r) i) as [He|Hne].
  - split; [unfold same_but_grain; cbn; tauto|]. intros Hn. exfalso. apply Hn. now left.
  - apply kept_outside_refl.
Qed.

Section TableFacts.

Context {E : Env}.

Lemma apply_updates_kept bs : forall t,
  Forall2 (kept_outside (map snd bs)) t (apply_updates bs t).
Proof.
  induction bs as [|[g i] bs IH]; intros t; cbn [apply_updates fold_left map snd fst].
  - apply Forall2_refl_kept.
  - apply Forall2_trans_kept with (t2 := Sql.update g i t).
    + apply Forall2_incl_kept with (ids := [i]); [|apply update_kept].
      intros x [Hx|[]]. now left.
    + apply Forall2_incl_kept with (ids := map snd bs); [|apply IH].
      intros x Hx. now right.
Qed.

Lemma infer_ids remaining : forall t,
  incl (map fst (snd (infer remaining t))) (map (fun x => fst (fst x)) remaining).
Proof.
  induction remaining as [|[[i q] y] rem IH]; intros t; cbn [infer map fst snd].
  - intros x [].
  - destruct (candidate q t) as [[g c]|].
    + specialize (IH (Sql.update (Some g) i t)).
      destruct (infer rem (Sql.update (Some g) i t)) as [t' inf]. cbn [fst snd map] in *.
      intros x [Hx|Hx]; [now left | right; now apply IH].
    + intros x Hx. right. now apply (IH t).
Qed.

Lemma infer_kept remaining : forall t,
  Forall2 (kept_outside (map fst (snd (infer remaining t)))) t (fst (infer remaining t)).
Proof.
  induction remaining as [|[[i q] y] rem IH]; intros t; cbn [infer].
  - apply Forall2_refl_kept.
  - destruct (candidate q t) as [[g c]|]; [|apply IH].
    specialize (IH (Sql.update (Some g) i t)).
    destruct (infer rem (Sql.update (Some g) i t)) as [t' inf]. cbn [fst snd map] in *.
    apply Forall2_trans_kept with (t2 := Sql.update (Some g) i t).
    + apply Forall2_incl_kept with (ids := [i]); [|apply update_kept].
      intros x [Hx|[]]. now left.
    + apply Forall2_incl_kept with (ids := map fst inf); [|exact IH].
      intros x Hx. now right.
Qed.

Lemma collect_updates_ids rows : forall acc us,
  collect_updates rows acc = Ok us ->
  incl (map snd us) (map snd acc ++ map fst rows).
Proof.
  induction rows as [|[i d] rows IH]; intros acc us; cbn [collect_updates map fst].
  - intros H; inversion H; subst. rewrite app_nil_r. apply incl_refl.
  - assert (Hskip : collect_updates rows acc = Ok us ->
                    incl (map snd us) (map snd acc ++ i :: map fst rows)).
    { intros H x Hx. apply IH in H. apply H in Hx. apply in_app_iff in Hx.
      apply in_app_iff. destruct Hx; [now left | right; now right]. }
    destruct d as [[|c d]|]; try exact Hskip.
    destruct (parse_description (c :: d)) as [v|e]; cbn [exc_bind]; [|discriminate].
    destruct (Py.truthy v); [|exact Hskip].
    intros H x Hx. apply IH in H. apply H in Hx.
    rewrite map_app in Hx. cbn [map snd] in Hx.
    rewrite !in_app_iff in Hx. apply in_app_iff.
    destruct Hx as [[Hx|[Hx|[]]]|Hx]; [now left | right; now left | right; now right].
Qed.

Lemma bind_all_ids us : forall bs, bind_all us = Ok bs -> map snd bs = map snd us.
Proof.
  induction us as [|[g i] us IH]; intros bs; cbn [bind_all].
  - intros H; inversion H. reflexivity.
  - destruct (bind_text g); [|discriminate].
    destruct (bind_all us) as [bs'|]; [|discriminate].
    intros H; inversion H; subst. cbn [map snd]. f_equal. now apply IH.
Qed.

Lemma select_descriptions_ids t : map fst (Sql.select_empty_descriptions t) = empty_ids t.
Proof. unfold Sql.select_empty_descriptions, empty_ids. rewrite map_map. reflexivity. Qed.

Lemma select_rates_ids t :
  map (fun x => fst (fst x)) (Sql.select_empty_rates t) = empty_ids t.
Proof. unfold Sql.select_empty_rates, empty_ids. rewrite map_map. reflexivity. Qed.

(** The first pass touches selected rows only. *)
Lemma textual_pass_kept t t1 :
  textual_pass t = Ok t1 -> Forall2 (kept_outside (empty_ids t)) t t1.
Proof.
  unfold textual_pass.
  destruct (collect_updates (Sql.select_empty_descriptions t) []) as [us|] eqn:Hc;
    [|discriminate].
  destruct (bind_all us) as [bs|] eqn:Hb; [|discriminate].
  intros H; inversion H; subst.
  apply Forall2_incl_kept with (ids := map snd bs); [|apply apply_updates_kept].
  rewrite (bind_all_ids _ Hb). apply collect_updates_ids in Hc.
  cbn [map app] in Hc. now rewrite select_descriptions_ids in Hc.
Qed.

Lemma Forall2_In_right A B (R : A -> B -> Prop) l l' y :
  Forall2 R l l' -> In y l' -> exists x, In x l /\ R x y.
Proof.
  intros H. induction H as [|a b l l' Hab _ IH]; intros Hy; [destruct Hy|].
  destruct Hy as [Hy|Hy].
  - subst. exists a. split; [now left | exact Hab].
  - destruct (IH Hy) as [x [Hx Hr]]. exists x. split; [now right | exact Hr].
Qed.

Lemma Forall2_In_left A B (R : A -> B -> Prop) l l' x :
  Forall2 R l l' -> In x l -> exists y, In y l' /\ R x y.
Proof.
  intros H. induction H as [|a b l l' Hab _ IH]; intros Hx; [destruct Hx|].
  destruct Hx as [Hx|Hx].
  - subst. exists b. split; [now left | exact Hab].
  - destruct (IH Hx) as [y [Hy Hr]]. exists y. split; [now right | exact Hr].
Qed.

Lemma in_empty_ids t x :
  In x (empty_ids t) <-> exists r, In r t /\ Sql.grain_is_empty r = true /\ id r = x.
Proof.
  unfold empty_ids. rewrite in_map_iff. split.
  - intros [r [Hi Hr]]. apply filter_In in Hr. destruct Hr. eauto.
  - intros [r [Hr [He Hi]]]. exists r. split; [exact Hi|]. apply filter_In. auto.
Qed.

(** A row that is selected after some updates was selected before them. *)
Lemma empty_ids_kept ids t t' :
  incl ids (empty_ids t) -> Forall2 (kept_outside ids) t t' ->
  incl (empty_ids t') (empty_ids t).
Proof.
  intros Hs H x Hx. apply in_empty_ids in Hx. destruct Hx as [r' [Hr' [He' Hi']]].
  destruct (@Forall2_In_right _ _ _ _ _ _ H Hr') as [r [Hr [[Hi _] Hk]]].
  destruct (in_dec Z.eq_dec (id r) ids) as [Hin|Hout].
  - apply Hs. congruence.
  - rewrite (Hk Hout) in *. apply in_empty_ids. eauto.
Qed.

(** The second pass touches selected rows only. *)
Lemma inference_pass_kept t : Forall2 (kept_outside (empty_ids t)) t (inference_pass t).
Proof.
  unfold inference_pass.
  apply Forall2_incl_kept with (ids := map fst (snd (infer (Sql.select_empty_rates t) t)));
    [|apply infer_kept].
  rewrite <- select_rates_ids. apply infer_ids.
Qed.

(** Both passes together touch only rows selected at the start. *)
Lemma passes_kept t t1 :
  textual_pass t = Ok t1 ->
  Forall2 (kept_outside (empty_ids t)) t (inference_pass t1).
Proof.
  intros H. apply textual_pass_kept in H.
  apply Forall2_trans_kept with (t2 := t1); [exact H|].
  apply Forall2_incl_kept with (ids := empty_ids t1); [|apply inference_pass_kept].
  apply empty_ids_kept with (ids := empty_ids t); [apply incl_refl | exact H].
Qed.

End TableFacts.

(** With a unique key, the identifier of a row that is not selected is not
    the identifier of a selected one. *)
Lemma NoDup_map_inj A B (f : A -> B) l a b :
  NoDup (map f l) -> In a l -> In b l -> f a = f b -> a = b.
Proof.
  induction l as [|x l IH]; intros Hn Ha Hb Hf; [destruct Ha|].
  cbn [map] in Hn. inversion Hn as [|? ? Hx Hn']; subst.
  destruct Ha as [Ha|Ha], Hb as [Hb|Hb]; subst.
  - reflexivity.
  - exfalso. apply Hx. rewrite Hf. now apply in_map.
  - exfalso. apply Hx. rewrite <- Hf. now apply in_map.
  - now apply IH.
Qed.

Lemma not_selected_id t r :
  NoDup (map id t) -> In r t -> Sql.grain_is_empty r = false -> ~ In (id r) (empty_ids t).
Proof.
  intros Hn Hr He Hi. apply in_empty_ids in Hi. destruct Hi as [r2 [Hr2 [He2 Hi2]]].
  assert (r2 = r) by (eapply NoDup_map_inj; eauto). subst. congruence.
Qed.

(** ** What a run leaves *)

Section RunFacts.

Context {E : Env}.

Lemma set_path_other A (f : str -> option A) p a q :
  str_eqb q p = false -> set_path f p a q = f q.
Proof. intros H. unfold set_path. now rewrite H. Qed.

Lemma after_connect_files path w c :
  files w path = Some c -> files (after_connect path w) = files w.
Proof. intros H. unfold after_connect. cbn [files]. now rewrite H. Qed.

Lemma initial_content_some path w c : files w path = Some c -> initial_content path w = c.
Proof. intros H. unfold initial_content. now rewrite H. Qed.

Lemma after_backup_path path w :
  files (after_backup path w) path = Some (initial_content path w).
Proof.
  unfold after_backup. cbn [files].
  rewrite !set_path_other by apply path_not_bak.
  unfold after_connect, initial_content. cbn [files].
  destruct (files w path) eqn:H; [exact H | apply set_path_same].
Qed.


Lemma initial_content_after_backup path w :
  initial_content path (after_backup path w) = initial_content path w.
Proof. unfold initial_content at 1. now rewrite after_backup_path. Qed.

(** The table in the database file after a run: the one before it, or the
    one the two passes give. *)
Lemma main_table path w t :
  table_at w path = Some t ->
  table_at (snd (main path w)) path = Some t
  \/ exists t1, textual_pass t = Ok t1
                /\ table_at (snd (main path w)) path = Some (inference_pass t1).
Proof.
  intros Ht. unfold table_at in Ht.
  destruct (files w path) as [c|] eqn:Hf; [|discriminate].
  rewrite main_backup.
  destruct (locked w path); [left; unfold table_at; cbn [snd]; now rewrite Hf|].
  destruct (locked w (path ++ dot_bak)).
  { left. unfold table_at. cbn [snd]. now rewrite (after_connect_files _ _ Hf), Hf. }
  assert (Hv : view (after_backup path w) = Some t).
  { unfold after_backup. cbn [view]. now rewrite (initial_content_some _ _ Hf). }
  destruct (collect_updates_ok (Sql.select_empty_descriptions t) []) as [us Hc].
  pose proof (passes_run path (after_backup path w) Hv Hc) as Hp.
  cbv zeta in Hp. unfold textual_pass. rewrite Hc.
  destruct (bind_all us) as [bs|e].
  - right. exists (apply_updates bs t). split; [reflexivity|].
    rewrite Hp. unfold table_at, inference_pass.
    destruct (map snd us ++ _) as [|i0 ids];
      [|destruct (Nat.leb _ _)]; cbn [snd files]; now rewrite set_path_same.
  - left. destruct Hp as (t' & evs & Hp & _). rewrite Hp.
    unfold table_at. cbn [snd files].
    now rewrite after_backup_path, (initial_content_some _ _ Hf).
Qed.



(** A run that ends without an exception: its actions and the table it
    leaves. *)
Lemma main_ok path w :
  fst (main path w) = Ok tt ->
  exists t us bs,
    table_of (initial_content path w) = Some t
    /\ collect_updates (Sql.select_empty_descriptions t) [] = Ok us
    /\ bind_all us = Ok bs
    /\ trace (snd (main path w))
       = trace w ++ backup_events path w
           ++ pass_events (List.length (Sql.select_empty_descriptions t)) us bs
                (snd (infer (Sql.select_empty_rates (apply_updates bs t))
                            (apply_updates bs t)))
           ++ report_events
                (match map snd us
                       ++ map fst (snd (infer (Sql.select_empty_rates (apply_updates bs t))
                                              (apply_updates bs t))) with
                 | [] => []
                 | i :: ids =>
                   Sql.select_in
                     (i :: ids)
                     (fst (infer (Sql.select_empty_rates (apply_updates bs t))
                                 (apply_updates bs t)))
                 end)
           ++ [Close; Print Done]
    /\ table_at (snd (main path w)) path = Some (inference_pass (apply_updates bs t)).
Proof.
  rewrite main_backup.
  destruct (locked w path); [discriminate|].
  destruct (locked w (path ++ dot_bak)); [discriminate|].
  destruct (view (after_backup path w)) as [t|] eqn:Hv;
    [|rewrite (passes_no_table path _ Hv); discriminate].
  destruct (collect_updates_ok (Sql.select_empty_descriptions t) []) as [us Hc].
  pose proof (passes_run path (after_backup path w) Hv Hc) as Hp.
  cbv zeta in Hp.
  destruct (bind_all us) as [bs|e] eqn:Hb;
    [|destruct Hp as (t' & evs & Hp & _); rewrite Hp; discriminate].
  rewrite Hp. clear Hp. intros Hok.
  exists t, us, bs. split; [exact Hv|]. split; [exact Hc|]. split; [exact Hb|].
  unfold inference_pass, table_at.
  destruct (map snd us ++ _) as [|i0 ids] eqn:Hids.
  - cbn [snd trace files]. rewrite set_path_same. split; [|reflexivity].
    unfold after_backup. cbn [trace report_events map app].
    rewrite <- !app_assoc. reflexivity.
  - destruct (Nat.leb _ _); [|discriminate].
    cbn [snd trace files]. rewrite set_path_same. split; [|reflexivity].
    unfold after_backup. cbn [trace]. rewrite <- !app_assoc. reflexivity.
Qed.


Lemma updated_ids_app l1 l2 : updated_ids (l1 ++ l2) = updated_ids l1 ++ updated_ids l2.
Proof.
  induction l1 as [|e l1 IH]; [reflexivity|]. cbn [app updated_ids].
  destruct e; cbn [app]; now rewrite ?IH.
Qed.




Lemma updated_ids_updates bs : updated_ids (map update_event bs) = map snd bs.
Proof.
  induction bs as [|b bs IH]; [reflexivity|].
  cbn [map update_event updated_ids]. f_equal. exact IH.
Qed.

Lemma updated_ids_inferred inf : updated_ids (map infer_event inf) = map fst inf.
Proof.
  induction inf as [|b inf IH]; [reflexivity|].
  cbn [map infer_event updated_ids]. f_equal. exact IH.
Qed.

Lemma updated_ids_report rows : updated_ids (report_events rows) = [].
Proof. induction rows as [|x rows IH]; [reflexivity | exact IH]. Qed.

End RunFacts.

(** ** The candidate query *)




Lemma count_in_keys g groups k c :
  In (k, c) (Sql.count_in g groups) -> k = g \/ exists c', In (k, c') groups.
Proof.
  induction groups as [|[g' n] groups IH]; cbn [Sql.count_in].
  - intros [H|[]]. inversion H. now left.
  - destruct (str_eqb g' g) eqn:He.
    + intros [H|H].
      * inversion H; subst. apply str_eqb_eq in He. now left.
      * right. exists c. now right.
    + intros [H|H].
      * inversion H; subst. right. exists c. now left.
      * destruct (IH H) as [Hk|[c' Hc']]; [now left|]. right. exists c'. now right.
Qed.

Lemma group_fold_keys rows : forall acc k c,
  In (k, c)
     (fold_left (fun groups r =>
                   match grain_type r with
                   | Some g => Sql.count_in g groups
                   | None => groups
                   end) rows acc) ->
  (exists c', In (k, c') acc) \/ exists x, In x rows /\ grain_type x = Some k.
Proof.
  induction rows as [|r rows IH]; intros acc k c; cbn [fold_left].
  - intros H. left. eauto.
  - intros H. apply IH in H. destruct H as [[c' H]|[x [Hx Hg]]].
    + destruct (grain_type r) as [g|] eqn:Hr.
      * apply count_in_keys in H. destruct H as [Hk|H]; [|now left].
        subst. right. exists r. split; [now left | exact Hr].
      * left. eauto.
    + right. exists x. split; [now right | exact Hg].
Qed.

(** Every group of the candidate query is the grain type of one of its
    rows. *)
Lemma group_keys rows k c :
  In (k, c) (Sql.group_by_grain_type rows) -> exists x, In x rows /\ grain_type x = Some k.
Proof.
  intros H. apply group_fold_keys in H. destruct H as [[c' []]|H]. exact H.
Qed.



Section InferFacts.

Context {E : Env}.

Lemma order_by_in groups p :
  order_by_cnt_desc_limit_1 groups = Some p ->
  In p groups /\ snd p = Sql.max_count groups.
Proof.
  unfold order_by_cnt_desc_limit_1. intros H. apply nth_error_In in H.
  apply filter_In in H. destruct H as [Hi He]. apply Nat.eqb_eq in He. auto.
Qed.



(** What the candidate query returns is the grain type of a row that
    qualifies. *)
Lemma candidate_source q t g c :
  candidate q t = Some (g, c) ->
  exists x, In x t /\ grain_type x = Some g /\ Sql.rate_matches q x = true.
Proof.
  unfold candidate. intros H. apply order_by_in in H. destruct H as [H _].
  apply group_keys in H. destruct H as [x [Hx Hg]]. apply filter_In in Hx.
  destruct Hx as [Hx Hc]. exists x. repeat split; try assumption.
  unfold Sql.is_candidate in Hc. now rewrite Hg in Hc.
Qed.




End InferFacts.

(** ** Rows a run leaves as they are *)

Lemma update_in_other g i t r : In r t -> id r <> i -> In r (Sql.update g i t).
Proof.
  intros Hr Hi. unfold Sql.update.
  set (f := fun r => if (id r =? i)%Z
                     then mkRow (id r) (description r) (rate_per_quintal r) (quantity r) g
                     else r).
  replace r with (f r); [now apply in_map|].
  unfold f. destruct (Z.eqb_spec (id r) i); [contradiction | reflexivity].
Qed.



Lemma kept_ids ids t t' : Forall2 (kept_outside ids) t t' -> map id t' = map id t.
Proof.
  intros H. induction H as [|r r' t t' [[Hi _] _] _ IH]; [reflexivity|].
  cbn [map]. now rewrite Hi, IH.
Qed.

Lemma kept_in ids t t' r :
  Forall2 (kept_outside ids) t t' -> In r t -> ~ In (id r) ids -> In r t'.
Proof.
  intros H Hr Hn. destruct (@Forall2_In_left _ _ _ _ _ _ H Hr) as [r' [Hr' [_ Hk]]].
  now rewrite <- (Hk Hn).
Qed.

Section Unchanged.

Context {E : Env}.





End Unchanged.

(** ** The parsers: claims *)

(** C4, as the code has it.  The free-text parser returns the trimmed label
    of the first match of the pattern whenever that match has a label: the
    trimmed text when it is not empty, and the empty string, not [None],
    when the label is all white space.  It returns [None] when the first
    match has no label and when the pattern matches nowhere.  In particular
    the description with label Bajra yields that label, and the one that
    starts with a colon yields [None]. *)
Theorem C4_free_text_parser :
  (forall desc : str,
      (forall l, Shape.first_match desc (Some l) ->
                 parse_from_simple_description desc = PStr (PyStr.strip l))
      /\ (Shape.first_match desc None -> parse_from_simple_description desc = PNone)
      /\ (Shape.no_match desc -> parse_from_simple_description desc = PNone)
      /\ ((exists l, Shape.first_match desc (Some l))
          \/ Shape.first_match desc None \/ Shape.no_match desc))
  /\ parse_from_simple_description (py "Bajra: 12 bags × 50.5kg @ ₹1800/qt")
     = PStr (py "Bajra")
  /\ parse_from_simple_description (py ": 9 bags x 50kg @ ₹1910/qt") = PNone.
Proof.
  split; [|split; vm_compute; reflexivity].
  intros desc. apply parse_simple_spec.
Qed.

(** C4 as stated fails: the first match of [" : 9 bags x 50kg"] has the
    label [" "], which is empty after trimming, and the parser returns the
    empty string where the claim has no result. *)
Lemma C4_blank_label_counterexample :
  Shape.first_match (py " : 9 bags x 50kg") (Some (py " "))
  /\ PyStr.strip (py " ") = []
  /\ parse_from_simple_description (py " : 9 bags x 50kg") = PStr []
  /\ PStr [] <> PNone.
Proof.
  split; [|split; [|split]]; try (vm_compute; reflexivity); try discriminate.
  pose proof (first_spec (py " : 9 bags x 50kg")) as H.
  vm_compute in H. exact H.
Qed.

Lemma startswith_app p r : PyStr.startswith p (p ++ r) = true.
Proof.
  induction p as [|c p IH]; cbn [PyStr.startswith app]; [reflexivity|].
  now rewrite N.eqb_refl, IH.
Qed.

Lemma skipn_length_app A (p r : list A) : skipn (List.length p) (p ++ r) = r.
Proof. induction p as [|c p IH]; cbn; auto. Qed.

Lemma replace_first_unfold old new s :
  PyStr.replace_first old new s
  = if PyStr.startswith old s then new ++ skipn (List.length old) s
    else match s with
         | c :: s' => c :: PyStr.replace_first old new s'
         | [] => []
         end.
Proof. destruct s; reflexivity. Qed.

(** Removing the prefix from a description that starts with it leaves the
    rest. *)
Lemma replace_first_prefix p r : PyStr.replace_first p [] (p ++ r) = r.
Proof.
  rewrite replace_first_unfold, startswith_app. cbn [app]. apply skipn_length_app.
Qed.

Section ParserClaims.

Context {E : Env}.

(** C5.  For a description made of the prefix and a rest that unquotes and
    loads to an array of items, or to an object whose [items] is such an
    array, the structured parser returns the [grainType] of the first item
    when that item has one. *)
Theorem C5_structured_parser_returns_grainType :
  forall (rest : str) (first : list (str * pyval)) (others : list pyval) (v : pyval),
    (json_loads (unquote rest) = Ok (PList (PDict first :: others))
     \/ exists o, json_loads (unquote rest) = Ok (PDict o)
                  /\ Py.dict_lookup o key_items = Some (PList (PDict first :: others))) ->
    Py.dict_lookup first key_grainType = Some v ->
    parse_from_bos_description (bos_prefix ++ rest) = Ok v.
Proof.
  intros rest first others v Hload Hgt.
  unfold parse_from_bos_description, parse_from_bos_description_try.
  rewrite replace_first_prefix.
  destruct Hload as [Hl|[o [Hl Hi]]]; rewrite Hl; cbn [exc_bind Py.is_list Py.get].
  - cbn [Py.truthy Py.is_list Py.getitem_0 exc_bind Py.contains Py.getitem_str].
    rewrite Hgt. reflexivity.
  - rewrite Hi. cbn [exc_bind Py.truthy Py.is_list Py.getitem_0 Py.contains Py.getitem_str].
    rewrite Hgt. reflexivity.
Qed.

(** What the structured parser returns besides [None] is the [grainType]
    of a first item that is an object. *)
Lemma parse_bos_result desc v :
  parse_from_bos_description desc = Ok v ->
  v = PNone
  \/ exists parsed first others,
       json_loads (unquote (PyStr.replace_first bos_prefix [] desc)) = Ok parsed
       /\ (parsed = PList (PDict first :: others)
           \/ exists o, parsed = PDict o
                        /\ Py.dict_lookup o key_items = Some (PList (PDict first :: others)))
       /\ Py.dict_lookup first key_grainType = Some v.
Proof.
  unfold parse_from_bos_description, parse_from_bos_description_try.
  destruct (json_loads (unquote (PyStr.replace_first bos_prefix [] desc)))
    as [parsed|e] eqn:Hl; cbn [exc_bind try_except]; [|intros H; inversion H; auto].
  assert (Hitems : forall items,
    (items = parsed \/ exists o, parsed = PDict o /\ Py.dict_lookup o key_items = Some items) ->
    match
      exc_bind
        (if Py.truthy items then
           if Py.is_list items then
             exc_bind (Py.getitem_0 items) (fun first => Py.contains key_grainType first)
           else Ok false
         else Ok false)
        (fun cond => if cond then exc_bind (Py.getitem_0 items)
                                           (fun first => Py.getitem_str first key_grainType)
                     else Ok PNone)
    with
    | Ok a => Ok a
    | Raise _ => Ok PNone
    end = Ok v ->
    v = PNone
    \/ exists first others,
         (parsed = PList (PDict first :: others)
          \/ exists o, parsed = PDict o
                       /\ Py.dict_lookup o key_items = Some (PList (PDict first :: others)))
         /\ Py.dict_lookup first key_grainType = Some v).
  { intros items Hsrc.
    destruct items as [| | | | |[|x l]|]; cbn [Py.truthy Py.is_list exc_bind];
      try (repeat match goal with |- context [if ?b then _ else _] => destruct b end;
           cbn [exc_bind]; intros H; inversion H; auto; fail).
    cbn [Py.getitem_0 exc_bind].
    destruct x as [| | | |s|l'|d]; cbn [Py.contains exc_bind Py.getitem_str];
      try (intros H; inversion H; auto; fail);
      try (match goal with |- context [if ?b then _ else _] => destruct b end;
           cbn [exc_bind]; intros H; inversion H; auto; fail).
    destruct (Py.dict_lookup d key_grainType) as [y|] eqn:Hy; cbn [exc_bind].
    - intros H; inversion H; subst. right. exists d, l. split; [|exact Hy].
      destruct Hsrc as [Hs|[o [Ho Hi]]]; [left; now symmetry | right; eauto].
    - intros H; inversion H; auto. }
  intros H.
  destruct parsed as [| | | | |l|o]; cbn [Py.is_list Py.get exc_bind] in H;
    try (inversion H; auto; fail).
  - apply Hitems in H; [|now left].
    destruct H as [H|(first & others & H1 & H2)]; [auto|].
    right. exists (PList l), first, others. auto.
  - destruct (Py.dict_lookup o key_items) as [items|] eqn:Hi.
    + apply Hitems in H; [|right; eauto].
      destruct H as [H|(first & others & H1 & H2)]; [auto|].
      right. exists (PDict o), first, others. auto.
    + cbn [Py.truthy exc_bind] in H. inversion H; auto.
Qed.

(** C6.  The structured parser returns on every string: whenever its body
    raises, and whenever the payload is not an array or an object holding
    one whose first item is an object with a [grainType], it returns
    [None]; and for a row whose description gives it no result, the loop of
    [main] goes on with the grain the free-text parser finds. *)
Theorem C6_structured_parser_never_raises :
  forall desc : str,
    (exists v, parse_from_bos_description desc = Ok v
               /\ (v = PNone
                   \/ exists parsed first others,
                        json_loads (unquote (PyStr.replace_first bos_prefix [] desc))
                        = Ok parsed
                        /\ (parsed = PList (PDict first :: others)
                            \/ exists o, parsed = PDict o
                                         /\ Py.dict_lookup o key_items
                                            = Some (PList (PDict first :: others)))
                        /\ Py.dict_lookup first key_grainType = Some v))
    /\ (forall e, parse_from_bos_description_try desc = Raise e ->
                  parse_from_bos_description desc = Ok PNone)
    /\ (forall v, parse_from_bos_description desc = Ok v -> Py.truthy v = false ->
                  parse_description desc = Ok (parse_from_simple_description desc)
                  /\ forall id_ c d rows updates,
                       desc = c :: d ->
                       collect_updates ((id_, Some desc) :: rows) updates
                       = collect_updates rows
                           (if Py.truthy (parse_from_simple_description desc)
                            then updates ++ [(parse_from_simple_description desc, id_)]
                            else updates)).
Proof.
  intros desc. split; [|split].
  - destruct (parse_bos_ok desc) as [v Hv]. exists v. split; [exact Hv|].
    now apply parse_bos_result.
  - intros e He. unfold parse_from_bos_description. now rewrite He.
  - intros v Hv Ht.
    assert (Hd : parse_description desc = Ok (parse_from_simple_description desc)).
    { unfold parse_description. destruct (PyStr.startswith bos_prefix desc).
      - rewrite Hv. cbn [exc_bind]. now rewrite Ht.
      - reflexivity. }
    split; [exact Hd|]. intros id_ c d rows updates Hdesc. subst desc.
    cbn [collect_updates]. rewrite Hd. reflexivity.
Qed.

End ParserClaims.

(** C5 at the description that encodes an object with one item of grain
    type Wheat. *)
Lemma C5_url_encoded_wheat_witness :
  (exists o, json_loads (unquote (py "%7B%22items%22%3A%5B%7B%22grainType%22%3A%22Wheat%22%7D%5D%7D"))
             = Ok (PDict o)
             /\ Py.dict_lookup o key_items
                = Some (PList (PDict [(key_grainType, PStr (py "Wheat"))] :: [])))
  /\ Py.dict_lookup [(key_grainType, PStr (py "Wheat"))] key_grainType
     = Some (PStr (py "Wheat"))
  /\ parse_from_bos_description
       (bos_prefix ++ py "%7B%22items%22%3A%5B%7B%22grainType%22%3A%22Wheat%22%7D%5D%7D")
     = Ok (PStr (py "Wheat")).
Proof.
  assert (H1 : exists o,
    json_loads (unquote (py "%7B%22items%22%3A%5B%7B%22grainType%22%3A%22Wheat%22%7D%5D%7D"))
    = Ok (PDict o)
    /\ Py.dict_lookup o key_items
       = Some (PList (PDict [(key_grainType, PStr (py "Wheat"))] :: []))).
  { eexists. split; vm_compute; reflexivity. }
  assert (H2 : Py.dict_lookup [(key_grainType, PStr (py "Wheat"))] key_grainType
               = Some (PStr (py "Wheat"))).
  { vm_compute. reflexivity. }
  split; [exact H1|]. split; [exact H2|].
  exact (@C5_structured_parser_returns_grainType cpython _ _ _ _ (or_intror H1) H2).
Defined.

(** ** The inference pass: claims *)




(** ** The run: claims *)


Lemma Forall2_impl_in A B (R R' : A -> B -> Prop) l l' :
  Forall2 R l l' -> (forall x y, In x l -> R x y -> R' x y) -> Forall2 R' l l'.
Proof.
  intros H. induction H as [|a b l l' Hab _ IH]; intros Himp; constructor.
  - apply Himp; [now left | exact Hab].
  - apply IH. intros x y Hx. apply Himp. now right.
Qed.

Section RunClaims.

Context {E : Env}.


(** C9.  On a table whose identifiers are unique, a run leaves every row
    its identifier, description, rate and quantity, and leaves every row
    whose grain type was not empty at the start exactly as it was. *)
Theorem C9_only_empty_grain_types_change :
  forall (path : str) (w : world) (t : table),
    table_at w path = Some t ->
    NoDup (map id t) ->
    exists t',
      table_at (snd (main path w)) path = Some t'
      /\ Forall2
           (fun r r' =>
              id r' = id r /\ description r' = description r
              /\ rate_per_quintal r' = rate_per_quintal r /\ quantity r' = quantity r
              /\ (Sql.grain_is_empty r = false -> grain_type r' = grain_type r))
           t t'.
Proof.
  intros path w t Ht Hn.
  assert (Hgoal : forall t', Forall2 (kept_outside (empty_ids t)) t t' ->
    Forall2
      (fun r r' =>
         id r' = id r /\ description r' = description r
         /\ rate_per_quintal r' = rate_per_quintal r /\ quantity r' = quantity r
         /\ (Sql.grain_is_empty r = false -> grain_type r' = grain_type r))
      t t').
  { intros t' H. eapply Forall2_impl_in; [exact H|].
    intros r r' Hr [[Hi [Hd [Hr' Hq]]] Hk]. repeat split; try assumption.
    intros He. rewrite Hk; [reflexivity|]. now apply not_selected_id. }
  destruct (main_table path w Ht) as [H|[t1 [H1 H]]].
  - exists t. split; [exact H|]. apply Hgoal, Forall2_refl_kept.
  - exists (inference_pass t1). split; [exact H|]. apply Hgoal. now apply passes_kept.
Qed.

End RunClaims.

(** C9 on a table of two rows, one of them without grain type. *)
Lemma C9_only_empty_grain_types_change_witness :
  let t := [mkRow 1 None 1910 5 (Some Wheat); mkRow 2 None 1910 3 None] in
  table_at (world_of t) example_path = Some t
  /\ NoDup (map id t)
  /\ exists t',
       table_at (snd (main example_path (world_of t))) example_path = Some t'
       /\ Forall2
            (fun r r' =>
               id r' = id r /\ description r' = description r
               /\ rate_per_quintal r' = rate_per_quintal r /\ quantity r' = quantity r
               /\ (Sql.grain_is_empty r = false -> grain_type r' = grain_type r))
            t t'.
Proof.
  intros t.
  assert (H1 : table_at (world_of t) example_path = Some t) by reflexivity.
  assert (H2 : NoDup (map id t)).
  { cbn. constructor; [intros [H|[]]; discriminate|].
    constructor; [intros []|constructor]. }
  split; [exact H1|]. split; [exact H2|].
  exact (@C9_only_empty_grain_types_change cpython example_path (world_of t) t H1 H2).
Defined.

(** ** Rows without description: claim *)

Section UnchangedClaim.

Context {E : Env}.


End UnchangedClaim.



(** ** Running the script again: claim *)

Section SecondRun.

Context {E : Env}.




End SecondRun.



(** ** The report: claim *)

Lemma NoDup_map_filter A B (f : A -> B) (p : A -> bool) l :
  NoDup (map f l) -> NoDup (map f (filter p l)).
Proof.
  induction l as [|x l IH]; intros H; [constructor|].
  cbn [map] in H. inversion H as [|? ? Hx Hl]; subst. cbn [filter].
  destruct (p x); [|now apply IH]. cbn [map]. constructor; [|now apply IH].
  intros Hin. apply Hx. apply in_map_iff in Hin. destruct Hin as [y [Hy Hyin]].
  apply filter_In in Hyin. rewrite <- Hy. apply in_map. tauto.
Qed.




Section ReportClaim.

Context {E : Env}.


End ReportClaim.



(** ** The inference against the claim of the specification *)

(** C1 on the code.  With two rows at the rate 1910, one of them Wheat and
    the other without grain type and with a description no parser reads,
    a run gives the second row Wheat.  But the candidate query takes every
    grain type that is not NULL: at the rate 10, with two rows whose grain
    type is the empty string and one Wheat row, the row without grain type
    is given the empty string, the most frequent value, and the run counts
    it and the two empty rows as inferred. *)
Theorem C1_inference_counts_empty_grain_types :
  table_at
    (snd (main example_path
            (world_of [mkRow 1 None 1910 5 (Some Wheat);
                       mkRow 2 (Some (py "misc sale")) 1910 3 None])))
    example_path
  = Some [mkRow 1 None 1910 5 (Some Wheat);
          mkRow 2 (Some (py "misc sale")) 1910 3 (Some Wheat)]
  /\ parse_description (py "misc sale") = Ok PNone
  /\ table_at
       (snd (main example_path
               (world_of [mkRow 1 None 10 5 None; mkRow 2 None 10 3 (Some []);
                          mkRow 3 None 10 2 (Some []); mkRow 4 None 10 1 (Some Wheat)])))
       example_path
     = Some [mkRow 1 None 10 5 (Some []); mkRow 2 None 10 3 (Some []);
             mkRow 3 None 10 2 (Some []); mkRow 4 None 10 1 (Some Wheat)]
  /\ report_lines
       (trace (snd (main example_path
               (world_of [mkRow 1 None 10 5 None; mkRow 2 None 10 3 (Some []);
                          mkRow 3 None 10 2 (Some []); mkRow 4 None 10 1 (Some Wheat)]))))
     = [(1%Z, Some [], None); (2%Z, Some [], None); (3%Z, Some [], None)].
Proof. repeat split; vm_compute; reflexivity. Qed.

(** ** The first loop, update by update *)

Section LoopFacts.

Context {E : Env}.

Lemma collect_updates_extends rows : forall acc us,
  collect_updates rows acc = Ok us -> exists more, us = acc ++ more.
Proof.
  induction rows as [|[i desc] rows IH]; intros acc us H; cbn [collect_updates] in H.
  - inversion H. exists []. now rewrite app_nil_r.
  - destruct desc as [[|c d]|]; try (now apply IH).
    destruct (parse_description_ok (c :: d)) as [v Hv]. rewrite Hv in H.
    cbn [exc_bind] in H. destruct (Py.truthy v).
    + destruct (IH _ _ H) as [more Hm]. exists ((v, i) :: more).
      rewrite Hm, <- app_assoc. reflexivity.
    + now apply IH.
Qed.

(** A selected row whose description gives a truthy value is updated. *)
Lemma collect_updates_complete rows : forall acc us i c d v,
  collect_updates rows acc = Ok us -> In (i, Some (c :: d)) rows ->
  parse_description (c :: d) = Ok v -> Py.truthy v = true -> In (v, i) us.
Proof.
  induction rows as [|[j desc] rows IH]; intros acc us i c d v H Hin Hp Ht; [destruct Hin|].
  cbn [collect_updates] in H. destruct Hin as [Heq|Hin].
  - inversion Heq; subst. rewrite Hp in H. cbn [exc_bind] in H. rewrite Ht in H.
    destruct (collect_updates_extends _ _ H) as [more Hm]. rewrite Hm.
    apply in_or_app. left. apply in_or_app. right. now left.
  - destruct desc as [[|c' d']|]; try (now apply (IH _ _ _ _ _ _ H Hin Hp Ht)).
    destruct (parse_description_ok (c' :: d')) as [v' Hv']. rewrite Hv' in H.
    cbn [exc_bind] in H. exact (IH _ _ _ _ _ _ H Hin Hp Ht).
Qed.

(** Every update comes from the description of a selected row. *)
Lemma collect_updates_sound rows : forall acc us v i,
  collect_updates rows acc = Ok us -> In (v, i) us ->
  In (v, i) acc
  \/ exists d, In (i, Some d) rows /\ parse_description d = Ok v /\ Py.truthy v = true.
Proof.
  induction rows as [|[j desc] rows IH]; intros acc us v i H Hin; cbn [collect_updates] in H.
  - inversion H; subst. now left.
  - assert (Hrest : forall acc', collect_updates rows acc' = Ok us -> acc' = acc ->
      In (v, i) acc
      \/ exists d, In (i, Some d) ((j, desc) :: rows)
                   /\ parse_description d = Ok v /\ Py.truthy v = true).
    { intros acc' H' ->. destruct (IH _ _ _ _ H' Hin) as [Ha|[d [Hd Hp]]]; [now left|].
      right. exists d. split; [now right | exact Hp]. }
    destruct desc as [[|c d]|]; try (now apply (Hrest acc)).
    destruct (parse_description (c :: d)) as [g|e] eqn:Hg; [|discriminate].
    cbn [exc_bind] in H. destruct (Py.truthy g) eqn:Ht; [|now apply (Hrest acc)].
    destruct (IH _ _ _ _ H Hin) as [Ha|[d' [Hd Hp]]].
    + apply in_app_or in Ha. destruct Ha as [Ha|[Ha|[]]]; [now left|].
      inversion Ha; subst. right. exists (c :: d). split; [now left | now split].
    + right. exists d'. split; [now right | exact Hp].
Qed.

Lemma collect_updates_length rows : forall acc us,
  collect_updates rows acc = Ok us ->
  List.length us <= List.length acc + List.length rows.
Proof.
  induction rows as [|[j desc] rows IH]; intros acc us H; cbn [collect_updates] in H.
  - inversion H; subst. lia.
  - cbn [List.length].
    destruct desc as [[|c d]|]; try (specialize (IH _ _ H); lia).
    destruct (parse_description (c :: d)) as [g|e]; [|discriminate].
    cbn [exc_bind] in H. destruct (Py.truthy g); specialize (IH _ _ H);
      rewrite ?length_app in IH; cbn [List.length] in IH; lia.
Qed.

(** One update that cannot be bound makes the batch fail. *)
Lemma bind_all_raise us : forall v i e,
  In (v, i) us -> bind_text v = Raise e -> exists e', bind_all us = Raise e'.
Proof.
  induction us as [|[g j] us IH]; intros v i e Hin Hb; [destruct Hin|].
  cbn [bind_all]. destruct Hin as [Heq|Hin].
  - inversion Heq; subst. rewrite Hb. now exists e.
  - destruct (bind_text g) as [b|e1]; [|now exists e1].
    destruct (IH _ _ _ Hin Hb) as [e' He']. rewrite He'. now exists e'.
Qed.

Lemma bind_all_length us : forall bs, bind_all us = Ok bs -> List.length bs = List.length us.
Proof.
  induction us as [|[g j] us IH]; intros bs H; cbn [bind_all] in H.
  - inversion H. reflexivity.
  - destruct (bind_text g); [|discriminate].
    destruct (bind_all us) as [bs'|]; [|discriminate].
    inversion H; subst. cbn [List.length]. now rewrite (IH bs').
Qed.

Lemma bind_all_in us : forall bs g i,
  bind_all us = Ok bs -> In (g, i) bs -> exists v, In (v, i) us /\ bind_text v = Ok g.
Proof.
  induction us as [|[v j] us IH]; intros bs g i H Hin; cbn [bind_all] in H.
  - inversion H; subst. destruct Hin.
  - destruct (bind_text v) as [b|] eqn:Hb; [|discriminate].
    destruct (bind_all us) as [bs'|]; [|discriminate].
    inversion H; subst. destruct Hin as [Heq|Hin].
    + inversion Heq; subst. exists v. split; [now left | exact Hb].
    + destruct (IH _ _ _ eq_refl Hin) as [v' [Hv' Hb']]. exists v'. split; [now right | exact Hb'].
Qed.

Lemma bind_all_of us : forall bs v i g,
  bind_all us = Ok bs -> In (v, i) us -> bind_text v = Ok g -> In (g, i) bs.
Proof.
  induction us as [|[v' j] us IH]; intros bs v i g H Hin Hb; [destruct Hin|].
  cbn [bind_all] in H.
  destruct (bind_text v') as [b|] eqn:Hb'; [|discriminate].
  destruct (bind_all us) as [bs'|]; [|discriminate].
  inversion H; subst. destruct Hin as [Heq|Hin].
  - inversion Heq; subst. left. congruence.
  - right. exact (IH _ _ _ _ eq_refl Hin Hb).
Qed.

Lemma infer_length remaining : forall t,
  List.length (snd (infer remaining t)) <= List.length remaining.
Proof.
  induction remaining as [|[[i q] y] remaining IH]; intros t; cbn [infer snd List.length].
  - lia.
  - destruct (candidate q t) as [[g c]|].
    + specialize (IH (Sql.update (Some g) i t)).
      destruct (infer remaining (Sql.update (Some g) i t)) as [t' inf].
      cbn [snd List.length] in *. lia.
    + specialize (IH t). lia.
Qed.

End LoopFacts.

(** ** The files a run leaves *)

Section OutcomeFacts.

Context {E : Env}.

Lemma str_eqb_neq a b : a <> b -> str_eqb a b = false.
Proof.
  intros H. destruct (str_eqb a b) eqn:He; [|reflexivity].
  apply str_eqb_eq in He. contradiction.
Qed.

(** The passes write to the database file alone. *)
Lemma passes_files path w p :
  p <> path ->
  files (snd (passes path w)) p = files w p
  /\ locked (snd (passes path w)) = locked w.
Proof.
  intros Hne. destruct (view w) as [t|] eqn:Hv;
    [|rewrite (passes_no_table path _ Hv); now split].
  destruct (collect_updates_ok (Sql.select_empty_descriptions t) []) as [us Hc].
  pose proof (passes_run path w Hv Hc) as Hp. cbv zeta in Hp.
  destruct (bind_all us) as [bs|e].
  - rewrite Hp.
    destruct (map snd us ++ _) as [|i0 ids]; [|destruct (Nat.leb _ _)];
      cbn [snd files locked]; (split; [|reflexivity]);
      rewrite !set_path_other by (now apply str_eqb_neq); reflexivity.
  - destruct Hp as (t' & evs & Hp & _). rewrite Hp. now split.
Qed.

(** A run whose first batch of updates cannot be bound. *)
Lemma main_bind_failure path w t us e :
  table_at w path = Some t ->
  locked w path = false -> locked w (path ++ dot_bak) = false ->
  collect_updates (Sql.select_empty_descriptions t) [] = Ok us ->
  bind_all us = Raise e ->
  exists evs,
    fst (main path w) = Raise e
    /\ files (snd (main path w)) path = files w path
    /\ trace (snd (main path w))
       = trace w ++ backup_events path w
           ++ [Print (FoundRows (List.length (Sql.select_empty_descriptions t)));
               Print (ParsedRows (List.length us))] ++ evs
    /\ Forall is_update evs.
Proof.
  intros Ht Hl Hlb Hc Hb. unfold table_at in Ht.
  destruct (files w path) as [c|] eqn:Hf; [|discriminate].
  rewrite main_backup, Hl, Hlb.
  assert (Hv : view (after_backup path w) = Some t).
  { unfold after_backup. cbn [view]. now rewrite (initial_content_some _ _ Hf). }
  pose proof (passes_run path (after_backup path w) Hv Hc) as Hp. cbv zeta in Hp.
  rewrite Hb in Hp. destruct Hp as (t' & evs & Hp & Hu). exists evs. rewrite Hp.
  cbn [fst snd files trace]. split; [reflexivity|].
  split; [now rewrite after_backup_path, (initial_content_some _ _ Hf)|].
  split; [|exact Hu].
  unfold after_backup. cbn [trace]. now rewrite <- !app_assoc.
Qed.

Lemma updates_without_commit evs :
  Forall is_update evs -> ~ In Commit evs.
Proof.
  intros H Hin. rewrite Forall_forall in H. exact (H _ Hin).
Qed.


Lemma counts_app l1 l2 : counts (l1 ++ l2) = counts l1 ++ counts l2.
Proof.
  induction l1 as [|e l1 IH]; [reflexivity|].
  cbn [app counts]. destruct e as [| | |[]| | |]; cbn [app]; now rewrite ?IH.
Qed.

Lemma counts_updates bs : counts (map update_event bs) = [].
Proof. induction bs as [|b bs IH]; [reflexivity | exact IH]. Qed.

Lemma counts_inferred inf : counts (map infer_event inf) = [].
Proof. induction inf as [|b inf IH]; [reflexivity | exact IH]. Qed.

Lemma counts_report rows : counts (report_events rows) = [].
Proof. induction rows as [|b rows IH]; [reflexivity | exact IH]. Qed.

(** No row becomes empty in a pass that leaves the rows that are not
    selected as they are. *)
Lemma empty_rows_kept t t' :
  NoDup (map id t) -> Forall2 (kept_outside (empty_ids t)) t t' ->
  List.length (filter Sql.grain_is_empty t') <= List.length (filter Sql.grain_is_empty t).
Proof.
  intros Hn H.
  assert (Hrows : Forall2 (fun r r' => Sql.grain_is_empty r' = true ->
                                       Sql.grain_is_empty r = true) t t').
  { eapply Forall2_impl_in; [exact H|]. intros r r' Hr [_ Hk] He.
    destruct (Sql.grain_is_empty r) eqn:Her; [reflexivity|].
    rewrite (Hk (@not_selected_id t r Hn Hr Her)) in He. congruence. }
  clear H Hn. induction Hrows as [|r r' l l' Hr _ IH]; [cbn; lia|].
  cbn [filter]. destruct (Sql.grain_is_empty r') eqn:He'.
  - rewrite (Hr eq_refl). cbn [List.length]. lia.
  - destruct (Sql.grain_is_empty r); cbn [List.length]; lia.
Qed.

End OutcomeFacts.

(** ** Stripping *)

Lemma lstrip_split p s :
  exists pre, s = pre ++ PyStr.lstrip_with p s /\ Forall (fun c => p c = true) pre.
Proof.
  induction s as [|c s IH]; cbn [PyStr.lstrip_with].
  - exists []. split; [reflexivity | constructor].
  - destruct (p c) eqn:Hc.
    + destruct IH as [pre [Hs Hp]]. exists (c :: pre). split.
      * cbn [app]. now rewrite <- Hs.
      * now constructor.
    + exists []. split; [reflexivity | constructor].
Qed.

Lemma rstrip_split p s :
  exists suf, s = PyStr.rstrip_with p s ++ suf /\ Forall (fun c => p c = true) suf.
Proof.
  unfold PyStr.rstrip_with. destruct (lstrip_split p (rev s)) as [pre [Hs Hp]].
  exists (rev pre). split.
  - rewrite <- rev_app_distr, <- Hs. now rewrite rev_involutive.
  - apply Forall_rev. exact Hp.
Qed.

Lemma head_ok_lstrip p s : head_ok p (PyStr.lstrip_with p s).
Proof.
  induction s as [|c s IH]; cbn [PyStr.lstrip_with]; [exact I|].
  destruct (p c) eqn:Hc; [exact IH | exact Hc].
Qed.

Lemma lstrip_fixed p s : head_ok p s -> PyStr.lstrip_with p s = s.
Proof.
  destruct s as [|c s]; [reflexivity|]. cbn [head_ok PyStr.lstrip_with].
  intros H. now rewrite H.
Qed.

Lemma rstrip_fixed p s : head_ok p (rev s) -> PyStr.rstrip_with p s = s.
Proof.
  intros H. unfold PyStr.rstrip_with. rewrite (@lstrip_fixed p (rev s) H).
  apply rev_involutive.
Qed.

Lemma head_ok_prefix p s suf : head_ok p (s ++ suf) -> head_ok p s.
Proof. destruct s as [|c s]; [intros _; exact I | intros H; exact H]. Qed.

Lemma head_ok_weaken (p q : char -> bool) s :
  (forall c, q c = true -> p c = true) -> head_ok p s -> head_ok q s.
Proof.
  intros Hpq. destruct s as [|c s]; [intros _; exact I|]. cbn [head_ok]. intros H.
  destruct (q c) eqn:Hq; [|reflexivity]. rewrite (Hpq _ Hq) in H. discriminate.
Qed.

(** Both ends of a stripped string are clean. *)
Lemma strip_ends l :
  head_ok PyStr.isspace (PyStr.strip l) /\ head_ok PyStr.isspace (rev (PyStr.strip l)).
Proof.
  unfold PyStr.strip. split.
  - destruct (rstrip_split PyStr.isspace (PyStr.lstrip_with PyStr.isspace l)) as [suf [Hs _]].
    apply (@head_ok_prefix PyStr.isspace _ suf). rewrite <- Hs. apply head_ok_lstrip.
  - unfold PyStr.rstrip_with. rewrite rev_involutive. apply head_ok_lstrip.
Qed.

Lemma strip_idempotent l : PyStr.strip (PyStr.strip l) = PyStr.strip l.
Proof.
  destruct (strip_ends l) as [Hh Ht]. unfold PyStr.strip at 1.
  rewrite (@lstrip_fixed PyStr.isspace (PyStr.strip l) Hh). now apply rstrip_fixed.
Qed.

Lemma strip_split l : exists a b, l = a ++ PyStr.strip l ++ b.
Proof.
  unfold PyStr.strip. destruct (lstrip_split PyStr.isspace l) as [pre [Hl _]].
  destruct (rstrip_split PyStr.isspace (PyStr.lstrip_with PyStr.isspace l)) as [suf [Hs _]].
  exists pre, suf. now rewrite <- Hs.
Qed.

Lemma strip_all (q : char -> bool) l : Shape.all q l -> Shape.all q (PyStr.strip l).
Proof.
  intros H. destruct (strip_split l) as [a [b Hl]]. unfold Shape.all in *.
  rewrite Hl in H. apply Forall_app in H. destruct H as [_ H].
  apply Forall_app in H. tauto.
Qed.

(** SQL's [trim] leaves a string stripped by Python as it is. *)
Lemma trim_strip l : Sql.trim (PyStr.strip l) = PyStr.strip l.
Proof.
  assert (Hsp : forall c, Sql.is_space c = true -> PyStr.isspace c = true).
  { intros c H. unfold Sql.is_space in H. apply N.eqb_eq in H. now subst. }
  destruct (strip_ends l) as [Hh Ht]. unfold Sql.trim.
  rewrite (@lstrip_fixed Sql.is_space (PyStr.strip l)
             (@head_ok_weaken PyStr.isspace Sql.is_space _ Hsp Hh)).
  apply rstrip_fixed. exact (@head_ok_weaken PyStr.isspace Sql.is_space _ Hsp Ht).
Qed.

(** The label of the first match is a piece of the string. *)
Lemma first_match_piece s r :
  Shape.first_match s r -> forall l, r = Some l -> exists a b, s = a ++ l ++ b.
Proof.
  induction 1 as [s l [_ [_ [t [Hs _]]]]|s _ _|c s r _ _ _ IH]; intros l' Hl.
  - inversion Hl; subst l'. exists [], (ch ":" :: t). exact Hs.
  - discriminate.
  - destruct (IH _ Hl) as [a [b Hs]]. exists (c :: a), b. cbn [app]. now rewrite <- Hs.
Qed.

(** Every result of the free-text parser is the stripped label of the
    first match. *)
Lemma parse_simple_cases desc :
  parse_from_simple_description desc = PNone
  \/ exists l, Shape.first_match desc (Some l)
               /\ parse_from_simple_description desc = PStr (PyStr.strip l).
Proof.
  destruct (parse_simple_spec desc) as (Hl & Hn & Hm & [[l H]|[H|H]]).
  - right. exists l. split; [exact H | now apply Hl].
  - left. now apply Hn.
  - left. now apply Hm.
Qed.

Lemma first_match_label s r :
  Shape.first_match s r -> forall l, r = Some l -> l <> [] /\ Shape.all not_colon l.
Proof.
  induction 1 as [s l [Hne [Hall _]]|s _ _|c s r _ _ _ IH]; intros l' Hl.
  - inversion Hl; subst l'. now split.
  - discriminate.
  - now apply IH.
Qed.

(** ** Counting the groups of the candidate query *)










(** ** Updates, row by row *)

Lemma update_sets g t x :
  In x t ->
  In (mkRow (id x) (description x) (rate_per_quintal x) (quantity x) g)
     (Sql.update g (id x) t).
Proof.
  intros Hx. unfold Sql.update. apply in_map_iff. exists x.
  split; [now rewrite Z.eqb_refl | exact Hx].
Qed.

Lemma update_in g i t r' :
  In r' (Sql.update g i t) -> In r' t \/ (grain_type r' = g /\ id r' = i).
Proof.
  unfold Sql.update. intros H. apply in_map_iff in H. destruct H as [x [Hx Hin]].
  destruct (id x =? i)%Z eqn:Hi.
  - right. subst r'. cbn [grain_type id]. split; [reflexivity | now apply Z.eqb_eq].
  - left. now subst.
Qed.


Lemma apply_updates_cons b bs t :
  apply_updates (b :: bs) t = apply_updates bs (Sql.update (fst b) (snd b) t).
Proof. reflexivity. Qed.

(** Of updates on distinct identifiers, each one shows in the table. *)
Lemma apply_updates_sets bs : forall t g r,
  NoDup (map snd bs) -> In (g, id r) bs -> In r t ->
  In (mkRow (id r) (description r) (rate_per_quintal r) (quantity r) g)
     (apply_updates bs t).
Proof.
  induction bs as [|[g0 i0] bs IH]; intros t g r Hn Hin Hr; [destruct Hin|].
  cbn [map snd] in Hn. inversion Hn as [|? ? Hx Hd]; subst.
  rewrite apply_updates_cons. cbn [fst snd]. destruct Hin as [Heq|Hin].
  - inversion Heq; subst.
    apply (@kept_in (map snd bs) (Sql.update g (id r) t) (apply_updates bs (Sql.update g (id r) t)));
      [apply apply_updates_kept | now apply update_sets | exact Hx].
  - apply IH; [exact Hd | exact Hin|].
    apply update_in_other; [exact Hr|]. intros He. apply Hx. rewrite <- He.
    apply (in_map snd) in Hin. exact Hin.
Qed.

Lemma apply_updates_in bs : forall t r',
  In r' (apply_updates bs t) ->
  In r' t \/ exists g i, In (g, i) bs /\ grain_type r' = g /\ id r' = i.
Proof.
  induction bs as [|[g0 i0] bs IH]; intros t r' H; [now left|].
  rewrite apply_updates_cons in H. cbn [fst snd] in H.
  destruct (IH _ _ H) as [Hin|(g & i & Hb & Hg)].
  - apply update_in in Hin. destruct Hin as [Hin|[Hg Hi]]; [now left|].
    right. exists g0, i0. split; [now left | now split].
  - right. exists g, i. split; [now right | exact Hg].
Qed.

Section InferRows.

Context {E : Env}.

(** The first loop appends at most one update for a row. *)
Lemma collect_updates_nodup rows : forall acc us,
  NoDup (map snd acc ++ map fst rows) ->
  collect_updates rows acc = Ok us -> NoDup (map snd us).
Proof.
  induction rows as [|[i desc] rows IH]; intros acc us Hn H; cbn [collect_updates] in H.
  - inversion H; subst. cbn [map] in Hn. now rewrite app_nil_r in Hn.
  - cbn [map fst] in Hn.
    assert (Hskip : NoDup (map snd acc ++ map fst rows)) by (eapply NoDup_remove_1; exact Hn).
    destruct desc as [[|c d]|]; try (now apply (IH acc)).
    destruct (parse_description (c :: d)) as [v|]; [|discriminate].
    cbn [exc_bind] in H. destruct (Py.truthy v); [|now apply (IH acc)].
    apply (IH (acc ++ [(v, i)])); [|exact H].
    rewrite map_app, <- app_assoc. exact Hn.
Qed.

(** What the inference writes is a grain type of the table it reads. *)
Lemma infer_in remaining : forall t r' g,
  In r' (fst (infer remaining t)) -> grain_type r' = Some g ->
  exists x, In x t /\ grain_type x = Some g.
Proof.
  induction remaining as [|[[i q] y] rem IH]; intros t r' g Hin Hg; cbn [infer] in Hin.
  - exists r'. now split.
  - destruct (candidate q t) as [[g0 c0]|] eqn:Hc; [|now apply (IH t r' g)].
    specialize (IH (Sql.update (Some g0) i t) r' g).
    destruct (infer rem (Sql.update (Some g0) i t)) as [t' inf]. cbn [fst] in *.
    destruct (IH Hin Hg) as [x [Hx Hgx]].
    apply update_in in Hx. destruct Hx as [Hx|[Hx _]]; [now exists x|].
    rewrite Hgx in Hx. inversion Hx; subst g0.
    destruct (@candidate_source E q t g c0 Hc) as [x0 [Hx0 [Hg0 _]]]. now exists x0.
Qed.


End InferRows.

(** ** The run when something fails early *)

Section EarlyFailures.

Context {E : Env}.



End EarlyFailures.



(** ** The run when an update or the report fails *)

Section LateFailures.

Context {E : Env}.

(** X3.  When the description of a selected row gives a grain that the
    [sqlite3] module cannot bind (a JSON array or object, an integer
    beyond 64 bits), the run ends with an exception at an [UPDATE] of the
    first batch: nothing is committed, and the database file is as it
    was. *)
Theorem unbindable_grain_aborts_without_commit :
  forall (path : str) (w : world) (t : table) (r : row) (d : str) (v : pyval) (e : exn),
    table_at w path = Some t ->
    locked w path = false ->
    locked w (path ++ dot_bak) = false ->
    In r t ->
    Sql.grain_is_empty r = true ->
    description r = Some d ->
    parse_description d = Ok v ->
    Py.truthy v = true ->
    bind_text v = Raise e ->
    exists e' evs,
      fst (main path w) = Raise e'
      /\ files (snd (main path w)) path = files w path
      /\ trace (snd (main path w)) = trace w ++ evs
      /\ ~ In Commit evs.
Proof.
  intros path w t r d v e Ht Hl Hlb Hr He Hd Hp Hv Hb.
  destruct (collect_updates_ok (Sql.select_empty_descriptions t) []) as [us Hc].
  assert (Hin : In (v, id r) us).
  { destruct d as [|c d].
    - exfalso. vm_compute in Hp. inversion Hp; subst. discriminate.
    - apply (@collect_updates_complete E _ [] us (id r) c d v Hc); [|exact Hp|exact Hv].
      unfold Sql.select_empty_descriptions. apply in_map_iff. exists r.
      split; [now rewrite Hd | apply filter_In; now split]. }
  destruct (@bind_all_raise E us v (id r) e Hin Hb) as [e' He'].
  destruct (@main_bind_failure E path w t us e' Ht Hl Hlb Hc He') as (evs & H1 & H2 & H3 & H4).
  exists e'. eexists. split; [exact H1|]. split; [exact H2|]. split; [exact H3|].
  intros Hin'. apply in_app_or in Hin'. destruct Hin' as [Hin'|Hin'].
  - unfold backup_events in Hin'. cbn [In] in Hin'.
    destruct Hin' as [H|[H|[H|[H|[]]]]]; discriminate.
  - cbn [app In] in Hin'. destruct Hin' as [H|[H|Hin']]; try discriminate.
    exact (@updates_without_commit evs H4 Hin').
Qed.


(** X5.  A run writes to the database file and to its backup, and to no other
    file. *)
Theorem run_touches_database_and_backup_only :
  forall (path : str) (w : world) (p : str),
    p <> path -> p <> path ++ dot_bak ->
    files (snd (main path w)) p = files w p.
Proof.
  intros path w p Hp Hb. rewrite main_backup.
  destruct (locked w path); [reflexivity|].
  assert (Hc : files (after_connect path w) p = files w p).
  { unfold after_connect. cbn [files]. destruct (files w path); [reflexivity|].
    apply set_path_other. now apply str_eqb_neq. }
  destruct (locked w (path ++ dot_bak)); [exact Hc|].
  rewrite (proj1 (@passes_files E path (after_backup path w) p Hp)).
  unfold after_backup. cbn [files].
  rewrite !set_path_other by (now apply str_eqb_neq). exact Hc.
Qed.

(** X6.  The counts of a run that ends well.  The first is the number of rows
    without grain type in the table the run is given; the second and the
    third add up to the number of updates executed; the second is at most
    the first, and so is the third when the identifiers are unique. *)
Theorem printed_counts_are_the_updates_executed :
  forall (path : str) (w : world) (t : table),
    table_at w path = Some t ->
    fst (main path w) = Ok tt ->
    exists evs parsed inferred,
      trace (snd (main path w)) = trace w ++ evs
      /\ counts evs = [FoundRows (List.length (filter Sql.grain_is_empty t));
                       ParsedRows parsed; InferredRows inferred]
      /\ parsed + inferred = List.length (updated_ids evs)
      /\ parsed <= List.length (filter Sql.grain_is_empty t)
      /\ (NoDup (map id t) -> inferred <= List.length (filter Sql.grain_is_empty t)).
Proof.
  intros path w t Ht Hrun.
  destruct (main_ok path w Hrun) as (t' & us & bs & Hv & Hc & Hb & Htr & _).
  assert (t' = t).
  { unfold table_at, initial_content in *. destruct (files w path); congruence. }
  subst t'.
  set (t1 := apply_updates bs t) in *.
  set (inferred := snd (infer (Sql.select_empty_rates t1) t1)) in *.
  eexists. exists (List.length us), (List.length inferred).
  split; [exact Htr|].
  assert (Hfound : List.length (Sql.select_empty_descriptions t)
                   = List.length (filter Sql.grain_is_empty t))
    by (unfold Sql.select_empty_descriptions; apply length_map).
  split; [|split; [|split]].
  - unfold backup_events, pass_events.
    rewrite !counts_app, counts_updates, counts_inferred, counts_report, Hfound.
    reflexivity.
  - unfold backup_events, pass_events.
    rewrite !updated_ids_app, updated_ids_updates, updated_ids_inferred, updated_ids_report.
    cbn [updated_ids app]. rewrite !length_app, !length_map, (@bind_all_length E us bs Hb).
    cbn [List.length]. lia.
  - rewrite <- Hfound. pose proof (@collect_updates_length E _ _ _ Hc) as H.
    cbn [List.length] in H. lia.
  - intros Hn. pose proof (@infer_length E (Sql.select_empty_rates t1) t1) as Hi.
    fold inferred in Hi. unfold Sql.select_empty_rates in Hi. rewrite length_map in Hi.
    assert (Htp : textual_pass t = Ok t1) by (unfold textual_pass; now rewrite Hc, Hb).
    pose proof (@empty_rows_kept t t1 Hn (@textual_pass_kept E t t1 Htp)). lia.
Qed.

End LateFailures.

(** A row whose structured payload has a list as grain type. *)
Lemma unbindable_grain_witness :
  let r := mkRow 1 (Some list_grain_payload) 1910 5 None in
  let w := world_of [r] in
  table_at w example_path = Some [r]
  /\ parse_description list_grain_payload = Ok (PList [PStr Wheat])
  /\ bind_text (PList [PStr Wheat]) = Raise ProgrammingError
  /\ exists e' evs,
       fst (main example_path w) = Raise e'
       /\ files (snd (main example_path w)) example_path = files w example_path
       /\ trace (snd (main example_path w)) = trace w ++ evs
       /\ ~ In Commit evs.
Proof.
  intros r w.
  assert (H1 : table_at w example_path = Some [r]) by reflexivity.
  assert (H2 : parse_description list_grain_payload = Ok (PList [PStr Wheat]))
    by (vm_compute; reflexivity).
  assert (H3 : bind_text (PList [PStr Wheat]) = Raise ProgrammingError) by reflexivity.
  split; [exact H1|]. split; [exact H2|]. split; [exact H3|].
  apply (@unbindable_grain_aborts_without_commit cpython example_path w [r] r
           list_grain_payload (PList [PStr Wheat]) ProgrammingError H1);
    first [exact H2 | now left | reflexivity].
Defined.


(** The counts of the run that fills one row from its description and
    one by inference. *)
Lemma printed_counts_witness :
  let w := world_of inferred_then_parsed in
  table_at w example_path = Some inferred_then_parsed
  /\ fst (main example_path w) = Ok tt
  /\ exists evs parsed inferred,
       trace (snd (main example_path w)) = trace w ++ evs
       /\ counts evs = [FoundRows (List.length (filter Sql.grain_is_empty inferred_then_parsed));
                        ParsedRows parsed; InferredRows inferred]
       /\ parsed + inferred = List.length (updated_ids evs)
       /\ parsed <= List.length (filter Sql.grain_is_empty inferred_then_parsed)
       /\ (NoDup (map id inferred_then_parsed) ->
           inferred <= List.length (filter Sql.grain_is_empty inferred_then_parsed)).
Proof.
  intros w.
  assert (H1 : table_at w example_path = Some inferred_then_parsed) by reflexivity.
  assert (H2 : fst (main example_path w) = Ok tt) by (vm_compute; reflexivity).
  split; [exact H1|]. split; [exact H2|].
  exact (@printed_counts_are_the_updates_executed cpython example_path w
           inferred_then_parsed H1 H2).
Defined.

(** A path that is neither the database nor its backup. *)
Lemma run_touches_witness :
  let w := world_of inferred_then_parsed in
  let p := py "/tmp/notes.txt" in
  p <> example_path
  /\ p <> example_path ++ dot_bak
  /\ files (snd (main example_path w)) p = files w p.
Proof.
  intros w p.
  assert (H1 : p <> example_path) by (intros H; vm_compute in H; discriminate H).
  assert (H2 : p <> example_path ++ dot_bak) by (intros H; vm_compute in H; discriminate H).
  split; [exact H1|]. split; [exact H2|].
  exact (@run_touches_database_and_backup_only cpython example_path w p H1 H2).
Defined.

(** ** What the free-text parser can return *)

(** X7.  The free-text parser returns [None] or a piece of the description
    that holds no colon and has no white space at either end: stripping it
    again changes nothing. *)
Theorem free_text_result_is_a_stripped_piece :
  forall desc : str,
    parse_from_simple_description desc = PNone
    \/ exists s,
         parse_from_simple_description desc = PStr s
         /\ PyStr.strip s = s
         /\ Forall (fun c => c <> ch ":") s
         /\ exists a b, desc = a ++ s ++ b.
Proof.
  intros desc. destruct (parse_simple_cases desc) as [H|[l [Hm Hp]]]; [now left|].
  right. exists (PyStr.strip l). split; [exact Hp|]. split; [apply strip_idempotent|].
  destruct (@first_match_label desc (Some l) Hm l eq_refl) as [_ Hall]. split.
  - apply strip_all in Hall. unfold Shape.all in Hall.
    eapply Forall_impl; [|exact Hall]. intros c Hc Heq. subst c. discriminate.
  - destruct (@first_match_piece desc (Some l) Hm l eq_refl) as [a [b Hs]].
    destruct (strip_split l) as [a' [b' Hl]].
    exists (a ++ a'), (b' ++ b). rewrite Hs at 1. rewrite Hl at 1.
    now rewrite <- !app_assoc.
Qed.

(** X8.  A grain type the free-text parser finds is not empty for SQLite
    either: [trim] leaves it as it is, so a row it is written to is not
    among the rows the inference selects. *)
Theorem free_text_grain_is_not_selected_again :
  forall (desc s : str),
    parse_from_simple_description desc = PStr s ->
    Py.truthy (PStr s) = true ->
    Sql.trim s = s
    /\ forall i d q y, Sql.grain_is_empty (mkRow i d q y (Some s)) = false.
Proof.
  intros desc s Hp Ht.
  assert (Htrim : Sql.trim s = s).
  { destruct (parse_simple_cases desc) as [H|[l [_ H]]]; rewrite H in Hp; [discriminate|].
    inversion Hp; subst s. apply trim_strip. }
  split; [exact Htrim|]. intros i d q y. unfold Sql.grain_is_empty. cbn [grain_type].
  rewrite Htrim. destruct s; [discriminate | reflexivity].
Qed.

(** The label Bajra of the example of the source. *)
Lemma free_text_grain_witness :
  let desc := py "Bajra: 12 bags x 50.5kg" in
  parse_from_simple_description desc = PStr (py "Bajra")
  /\ Py.truthy (PStr (py "Bajra")) = true
  /\ Sql.trim (py "Bajra") = py "Bajra".
Proof.
  intros desc.
  assert (H1 : parse_from_simple_description desc = PStr (py "Bajra"))
    by (vm_compute; reflexivity).
  assert (H2 : Py.truthy (PStr (py "Bajra")) = true) by reflexivity.
  split; [exact H1|]. split; [exact H2|].
  exact (proj1 (@free_text_grain_is_not_selected_again desc (py "Bajra") H1 H2)).
Defined.

(** ** The candidate query and the two passes *)

Section InferenceExtras.

Context {E : Env}.


(** X10.  On a table with unique identifiers, a row without grain type whose
    description gives a grain that is stored as a text not empty for
    SQLite has that grain type when a run ends well: the inference leaves
    it alone. *)
Theorem parsed_grain_is_kept_to_the_end :
  forall (path : str) (w : world) (t : table) (r : row) (d : str) (v : pyval) (g : str),
    table_at w path = Some t ->
    NoDup (map id t) ->
    fst (main path w) = Ok tt ->
    In r t ->
    Sql.grain_is_empty r = true ->
    description r = Some d ->
    parse_description d = Ok v ->
    Py.truthy v = true ->
    bind_text v = Ok (Some g) ->
    str_eqb (Sql.trim g) [] = false ->
    exists t',
      table_at (snd (main path w)) path = Some t'
      /\ In (mkRow (id r) (description r) (rate_per_quintal r) (quantity r) (Some g)) t'.
Proof.
  intros path w t r d v g Ht Hn Hrun Hr He Hd Hp Hv Hb Hg.
  destruct (main_ok path w Hrun) as (t0 & us & bs & Hv0 & Hc & Hbs & _ & Hfin).
  assert (t0 = t).
  { unfold table_at, initial_content in *. destruct (files w path); congruence. }
  subst t0. exists (inference_pass (apply_updates bs t)). split; [exact Hfin|].
  set (rg := mkRow (id r) (description r) (rate_per_quintal r) (quantity r) (Some g)).
  assert (Htp : textual_pass t = Ok (apply_updates bs t))
    by (unfold textual_pass; now rewrite Hc, Hbs).
  assert (Hus : In (v, id r) us).
  { destruct d as [|c d].
    - exfalso. vm_compute in Hp. inversion Hp; subst. discriminate.
    - apply (@collect_updates_complete E _ [] us (id r) c d v Hc); [|exact Hp|exact Hv].
      unfold Sql.select_empty_descriptions. apply in_map_iff. exists r.
      split; [now rewrite Hd | apply filter_In; now split]. }
  assert (Hnd : NoDup (map snd bs)).
  { rewrite (@bind_all_ids E us bs Hbs).
    apply (@collect_updates_nodup E (Sql.select_empty_descriptions t) [] us); [|exact Hc].
    cbn [map app]. rewrite select_descriptions_ids. unfold empty_ids.
    now apply NoDup_map_filter. }
  assert (H1 : In rg (apply_updates bs t)).
  { apply apply_updates_sets; [exact Hnd| |exact Hr].
    exact (@bind_all_of E us bs v (id r) (Some g) Hbs Hus Hb). }
  apply (@kept_in (empty_ids (apply_updates bs t)) (apply_updates bs t)); [|exact H1|].
  - apply inference_pass_kept.
  - apply not_selected_id; [|exact H1|].
    + rewrite (@kept_ids (empty_ids t) t (apply_updates bs t)
                 (@textual_pass_kept E t _ Htp)). exact Hn.
    + unfold Sql.grain_is_empty, rg. cbn [grain_type]. exact Hg.
Qed.

(** X11.  A run invents no grain type: every grain type in the table it leaves
    was in the table it was given, or is what the description of a row
    without grain type gave. *)
Theorem grain_types_come_from_rows_or_descriptions :
  forall (path : str) (w : world) (t t' : table) (r' : row) (g : str),
    table_at w path = Some t ->
    table_at (snd (main path w)) path = Some t' ->
    In r' t' ->
    grain_type r' = Some g ->
    (exists r, In r t /\ grain_type r = Some g)
    \/ (exists r d v,
           In r t /\ Sql.grain_is_empty r = true /\ description r = Some d
           /\ parse_description d = Ok v /\ Py.truthy v = true
           /\ bind_text v = Ok (Some g)).
Proof.
  intros path w t t' r' g Ht Ht' Hr' Hg.
  destruct (main_table path w Ht) as [H|[t1 [Htp H]]]; rewrite H in Ht'; inversion Ht'; subst t'.
  - left. now exists r'.
  - unfold inference_pass in Hr'.
    destruct (@infer_in E _ t1 r' g Hr' Hg) as [x [Hx Hgx]].
    unfold textual_pass in Htp.
    destruct (collect_updates (Sql.select_empty_descriptions t) []) as [us|] eqn:Hc;
      [|discriminate].
    destruct (bind_all us) as [bs|] eqn:Hb; [|discriminate]. inversion Htp; subst t1.
    destruct (@apply_updates_in bs t x Hx) as [Hin|(g0 & i & Hbs & Hg0 & _)].
    + left. now exists x.
    + right. rewrite Hgx in Hg0. subst g0.
      destruct (@bind_all_in E us bs (Some g) i Hb Hbs) as [v [Hus Hbv]].
      destruct (@collect_updates_sound E _ [] us v i Hc Hus) as [[]|[d [Hd [Hp Hv]]]].
      unfold Sql.select_empty_descriptions in Hd. apply in_map_iff in Hd.
      destruct Hd as [r [Heq Hr]]. apply filter_In in Hr. destruct Hr as [Hr He].
      inversion Heq. exists r, d, v. repeat split; assumption.
Qed.


End InferenceExtras.

(** The row filled from its own description in the table of two rows. *)
Lemma parsed_grain_witness :
  let r := mkRow 2 (Some wheat_sale) 10 3 None in
  let w := world_of inferred_then_parsed in
  table_at w example_path = Some inferred_then_parsed
  /\ NoDup (map id inferred_then_parsed)
  /\ fst (main example_path w) = Ok tt
  /\ In r inferred_then_parsed
  /\ parse_description wheat_sale = Ok (PStr Wheat)
  /\ exists t',
       table_at (snd (main example_path w)) example_path = Some t'
       /\ In (mkRow 2 (Some wheat_sale) 10 3 (Some Wheat)) t'.
Proof.
  intros r w.
  assert (H1 : table_at w example_path = Some inferred_then_parsed) by reflexivity.
  assert (H2 : NoDup (map id inferred_then_parsed)).
  { cbn. constructor; [intros [H|[]]; discriminate|].
    constructor; [intros []|constructor]. }
  assert (H3 : fst (main example_path w) = Ok tt) by (vm_compute; reflexivity).
  assert (H4 : In r inferred_then_parsed) by (right; now left).
  assert (H5 : parse_description wheat_sale = Ok (PStr Wheat)) by (vm_compute; reflexivity).
  repeat (split; [assumption|]).
  exact (@parsed_grain_is_kept_to_the_end cpython example_path w inferred_then_parsed r
           wheat_sale (PStr Wheat) Wheat H1 H2 H3 H4 eq_refl eq_refl H5 eq_refl eq_refl
           eq_refl).
Defined.

(** The grain type the inference gives the first of the two rows comes
    from the description of the second. *)
Lemma grain_types_provenance_witness :
  let w := world_of inferred_then_parsed in
  let t' := [mkRow 1 None 10 5 (Some Wheat); mkRow 2 (Some wheat_sale) 10 3 (Some Wheat)] in
  table_at w example_path = Some inferred_then_parsed
  /\ table_at (snd (main example_path w)) example_path = Some t'
  /\ ((exists r, In r inferred_then_parsed /\ grain_type r = Some Wheat)
      \/ (exists r d v,
             In r inferred_then_parsed /\ Sql.grain_is_empty r = true
             /\ description r = Some d
             /\ parse_description d = Ok v /\ Py.truthy v = true
             /\ bind_text v = Ok (Some Wheat))).
Proof.
  intros w t'.
  assert (H1 : table_at w example_path = Some inferred_then_parsed) by reflexivity.
  assert (H2 : table_at (snd (main example_path w)) example_path = Some t')
    by (vm_compute; reflexivity).
  split; [exact H1|]. split; [exact H2|].
  apply (@grain_types_come_from_rows_or_descriptions cpython example_path w
           inferred_then_parsed t' (mkRow 1 None 10 5 (Some Wheat)) Wheat H1 H2);
    [now left | reflexivity].
Defined.


(** ** The prefix of the structured payload *)

Lemma replace_first_absent old new s :
  Py.str_contains old s = false -> PyStr.replace_first old new s = s.
Proof.
  induction s as [|c s IH]; intros H; rewrite replace_first_unfold;
    cbn [Py.str_contains] in H; apply orb_false_iff in H; destruct H as [Hs Hr];
    rewrite Hs; [reflexivity|].
  now rewrite (IH Hr).
Qed.

Section PrefixExtras.

Context {E : Env}.

(** X13.  The structured parser removes the prefix where it finds it and does
    not ask for it: a payload in which the prefix does not occur is parsed
    as the same payload with the prefix in front. *)
Theorem structured_parser_prefix_is_optional :
  forall payload : str,
    Py.str_contains bos_prefix payload = false ->
    parse_from_bos_description payload
    = parse_from_bos_description (bos_prefix ++ payload).
Proof.
  intros payload H. unfold parse_from_bos_description, parse_from_bos_description_try.
  now rewrite replace_first_prefix, (@replace_first_absent bos_prefix [] payload H).
Qed.

End PrefixExtras.

(** An array of one Wheat item without the prefix. *)
Lemma structured_parser_prefix_witness :
  let payload := py "[{%22grainType%22:%22Wheat%22}]" in
  Py.str_contains bos_prefix payload = false
  /\ parse_from_bos_description payload = Ok (PStr Wheat)
  /\ parse_from_bos_description payload
     = parse_from_bos_description (bos_prefix ++ payload).
Proof.
  intros payload.
  assert (H1 : Py.str_contains bos_prefix payload = false) by (vm_compute; reflexivity).
  split; [exact H1|]. split; [vm_compute; reflexivity|].
  exact (@structured_parser_prefix_is_optional cpython payload H1).
Defined.

(** ** The part of the quantity *)

Lemma is_candidate_quantity q r r' :
  same_but_quantity r r' -> Sql.is_candidate q r' = Sql.is_candidate q r.
Proof.
  intros (_ & _ & Hr & Hg). unfold Sql.is_candidate, Sql.rate_matches. now rewrite Hr, Hg.
Qed.

Lemma grain_is_empty_quantity r r' :
  same_but_quantity r r' -> Sql.grain_is_empty r' = Sql.grain_is_empty r.
Proof. intros (_ & _ & _ & Hg). unfold Sql.grain_is_empty. now rewrite Hg. Qed.

Lemma group_by_quantity q t t' :
  Forall2 same_but_quantity t t' ->
  Sql.group_by_grain_type (filter (Sql.is_candidate q) t')
  = Sql.group_by_grain_type (filter (Sql.is_candidate q) t).
Proof.
  unfold Sql.group_by_grain_type. generalize (@nil (str * nat)).
  intros acc H. revert acc.
  induction H as [|r r' t t' Hr _ IH]; intros acc; [reflexivity|].
  cbn [filter]. rewrite (@is_candidate_quantity q r r' Hr).
  destruct (Sql.is_candidate q r); [|apply IH].
  cbn [fold_left]. destruct Hr as (_ & _ & _ & Hg). rewrite Hg. apply IH.
Qed.

Lemma update_quantity g i t t' :
  Forall2 same_but_quantity t t' ->
  Forall2 same_but_quantity (Sql.update g i t) (Sql.update g i t').
Proof.
  unfold Sql.update. induction 1 as [|r r' t t' Hr _ IH]; cbn [map]; constructor;
    [|exact IH].
  destruct Hr as (Hi & Hd & Hq & Hg). rewrite Hi.
  destruct (id r =? i)%Z; unfold same_but_quantity; cbn; auto.
Qed.

Lemma apply_updates_quantity bs : forall t t',
  Forall2 same_but_quantity t t' ->
  Forall2 same_but_quantity (apply_updates bs t) (apply_updates bs t').
Proof.
  induction bs as [|b bs IH]; intros t t' H; [exact H|].
  rewrite !apply_updates_cons. apply IH. now apply update_quantity.
Qed.

Lemma select_descriptions_quantity t t' :
  Forall2 same_but_quantity t t' ->
  Sql.select_empty_descriptions t' = Sql.select_empty_descriptions t.
Proof.
  unfold Sql.select_empty_descriptions.
  induction 1 as [|r r' t t' Hr _ IH]; [reflexivity|].
  cbn [filter]. rewrite (@grain_is_empty_quantity r r' Hr).
  destruct (Sql.grain_is_empty r); [|exact IH].
  cbn [map]. destruct Hr as (Hi & Hd & _). now rewrite Hi, Hd, IH.
Qed.

Lemma select_rates_quantity t t' :
  Forall2 same_but_quantity t t' ->
  Forall2 (fun x x' : Z * Q * Q => fst x' = fst x)
          (Sql.select_empty_rates t) (Sql.select_empty_rates t').
Proof.
  unfold Sql.select_empty_rates.
  induction 1 as [|r r' t t' Hr _ IH]; [constructor|].
  cbn [filter]. rewrite (@grain_is_empty_quantity r r' Hr).
  destruct (Sql.grain_is_empty r); [|exact IH].
  cbn [map]. constructor; [|exact IH].
  destruct Hr as (Hi & _ & Hq & _). cbn [fst]. now rewrite Hi, Hq.
Qed.

Section QuantityExtras.

Context {E : Env}.

Lemma candidate_quantity q t t' :
  Forall2 same_but_quantity t t' -> candidate q t' = candidate q t.
Proof. intros H. unfold candidate. now rewrite (@group_by_quantity q t t' H). Qed.

Lemma infer_quantity rem rem' :
  Forall2 (fun x x' : Z * Q * Q => fst x' = fst x) rem rem' ->
  forall t t', Forall2 same_but_quantity t t' ->
  Forall2 same_but_quantity (fst (infer rem t)) (fst (infer rem' t'))
  /\ snd (infer rem' t') = snd (infer rem t).
Proof.
  induction 1 as [|[[i q] y] [[i' q'] y'] rem rem' Hx _ IH]; intros t t' Ht; cbn [infer].
  - now split.
  - cbn [fst] in Hx. inversion Hx; subst i' q'.
    rewrite (@candidate_quantity q t t' Ht).
    destruct (candidate q t) as [[g c]|]; [|now apply IH].
    specialize (IH _ _ (@update_quantity (Some g) i t t' Ht)).
    destruct (infer rem (Sql.update (Some g) i t)) as [t1 inf1].
    destruct (infer rem' (Sql.update (Some g) i t')) as [t1' inf1']. cbn [fst snd] in *.
    destruct IH as [IH1 IH2]. split; [exact IH1 | now rewrite IH2].
Qed.

(** X14.  The quantity plays no part.  Of two runs that end well on tables
    that differ in the quantities only, each leaves the table the other
    leaves, up to the quantities: the same rows get the same grain types,
    although the second selection reads the quantity. *)
Theorem grain_types_do_not_depend_on_quantity :
  forall (path : str) (w w' : world) (t t' : table),
    table_at w path = Some t ->
    table_at w' path = Some t' ->
    Forall2 same_but_quantity t t' ->
    fst (main path w) = Ok tt ->
    fst (main path w') = Ok tt ->
    exists t2 t2',
      table_at (snd (main path w)) path = Some t2
      /\ table_at (snd (main path w')) path = Some t2'
      /\ Forall2 same_but_quantity t2 t2'.
Proof.
  intros path w w' t t' Ht Ht' Hq Hrun Hrun'.
  destruct (main_ok path w Hrun) as (t0 & us & bs & Hv & Hc & Hb & _ & Hfin).
  destruct (main_ok path w' Hrun') as (t0' & us' & bs' & Hv' & Hc' & Hb' & _ & Hfin').
  assert (t0 = t).
  { unfold table_at, initial_content in *. destruct (files w path); congruence. }
  assert (t0' = t').
  { unfold table_at, initial_content in *. destruct (files w' path); congruence. }
  subst t0 t0'. rewrite (select_descriptions_quantity Hq), Hc in Hc'.
  inversion Hc'; subst us'. rewrite Hb in Hb'. inversion Hb'; subst bs'.
  exists (inference_pass (apply_updates bs t)), (inference_pass (apply_updates bs t')).
  split; [exact Hfin|]. split; [exact Hfin'|].
  pose proof (@apply_updates_quantity bs t t' Hq) as H1.
  exact (proj1 (@infer_quantity _ _ (select_rates_quantity H1) _ _ H1)).
Qed.

End QuantityExtras.

(** Two tables of two rows that differ in the quantities. *)
Lemma quantity_witness :
  let t := [mkRow 1 None 1910 5 (Some Wheat); mkRow 2 None 1910 3 None] in
  let t' := [mkRow 1 None 1910 70 (Some Wheat); mkRow 2 None 1910 1 None] in
  table_at (world_of t) example_path = Some t
  /\ table_at (world_of t') example_path = Some t'
  /\ Forall2 same_but_quantity t t'
  /\ fst (main example_path (world_of t)) = Ok tt
  /\ fst (main example_path (world_of t')) = Ok tt
  /\ exists t2 t2',
       table_at (snd (main example_path (world_of t))) example_path = Some t2
       /\ table_at (snd (main example_path (world_of t'))) example_path = Some t2'
       /\ Forall2 same_but_quantity t2 t2'.
Proof.
  intros t t'.
  assert (H1 : table_at (world_of t) example_path = Some t) by reflexivity.
  assert (H2 : table_at (world_of t') example_path = Some t') by reflexivity.
  assert (H3 : Forall2 same_but_quantity t t').
  { repeat constructor. }
  assert (H4 : fst (main example_path (world_of t)) = Ok tt) by (vm_compute; reflexivity).
  assert (H5 : fst (main example_path (world_of t')) = Ok tt) by (vm_compute; reflexivity).
  repeat (split; [assumption|]).
  exact (@grain_types_do_not_depend_on_quantity cpython example_path (world_of t)
           (world_of t') t t' H1 H2 H3 H4 H5).
Defined.
